(** * Iterative solvers of [sigpy/alg.py]: a shallow embedding

    The Python classes [Alg], [PowerMethod], [ProximalPointMethod],
    [GradientMethod], [ConjugateGradient], [NewtonsMethod],
    [PrimalDualHybridGradient] and [AltMin] are embedded as records (one
    field per attribute) and as computations in a state-and-exception monad
    (one computation per method).

    Conventions of the embedding:
    - an attribute that [__init__] does not create is an [option] field;
      reading it while it is [None] raises [AttributeError], as in Python;
    - scalars are real numbers extended with the IEEE special values
      [+inf], [-inf] and [nan]; arithmetic on finite values is exact (no
      rounding, no overflow, no signed zero);
    - arrays are one-dimensional and real valued; a binary elementwise
      operation pairs the entries of its operands positionally;
    - an attribute holds the content of its array: an in-place write
      ([util.move_to], [util.axpy], [+=]) becomes a new value of the field,
      and the operators supplied by the caller are functions on contents;
    - the helpers of [sigpy.util] are not among the sources and follow the
      description of the numeric operation interface;
    - the device scope ([with self.device]) and the progress bar
      ([self.pbar]) are external collaborators and are left out. *)

From Stdlib Require Import Reals Lra Lia ZArith Bool List String.
Import ListNotations.

Set Implicit Arguments.

(** ** Python control: exceptions and mutable objects *)

Module Py.

Inductive exn : Type :=
| NameError (name : string)
| AttributeError (attr : string)
| ValueError (msg : string)
| TypeError (msg : string)
| NotImplementedError.

(** A method call either returns a value or raises; in both cases the
    object keeps the mutations done so far. *)
Inductive outcome (S A : Type) : Type :=
| Return (a : A) (s : S)
| Raise (e : exn) (s : S).

Arguments Return {S A} a s.
Arguments Raise {S A} e s.

Definition M (S A : Type) : Type := S -> outcome S A.

Definition ret {S A} (a : A) : M S A := fun s => Return a s.

Definition bind {S A B} (m : M S A) (k : A -> M S B) : M S B :=
  fun s => match m s with
           | Return a s' => k a s'
           | Raise e s' => Raise e s'
           end.

Definition raise {S A} (e : exn) : M S A := fun s => Raise e s.

(** [self.a] for an attribute created by [__init__]. *)
Definition get {S A} (f : S -> A) : M S A := fun s => Return (f s) s.

(** [self.a] for an attribute that may not exist (yet, or any more). *)
Definition getattr {S A} (name : string) (f : S -> option A) : M S A :=
  fun s => match f s with
           | Some v => Return v s
           | None => Raise (AttributeError name) s
           end.

(** [self.a = v], through the setter of the field. *)
Definition modify {S} (g : S -> S) : M S unit := fun s => Return tt (g s).

(** [del self.a]. *)
Definition delattr {S A} (name : string) (f : S -> option A)
           (clear : S -> S) : M S unit :=
  fun s => match f s with
           | Some _ => Return tt (clear s)
           | None => Raise (AttributeError name) s
           end.

(** The state an outcome leaves the object in. *)
Definition final {S A} (o : outcome S A) : S :=
  match o with Return _ s => s | Raise _ s => s end.

Definition returned {S A} (o : outcome S A) : bool :=
  match o with Return _ _ => true | Raise _ _ => false end.

(** The outcome of a call on an object seen as one variant of a sum type. *)
Definition lift {S T A} (inj : S -> T) (o : outcome S A) : outcome T A :=
  match o with
  | Return a s => Return a (inj s)
  | Raise e s => Raise e (inj s)
  end.

(** [n] successive calls of a method; stops at the first exception. *)
Fixpoint repeat_call {St} (n : nat) (m : M St unit) : M St unit :=
  match n with
  | O => ret tt
  | S n' => bind m (fun _ => repeat_call n' m)
  end.

End Py.

Import Py.

Declare Scope py_scope.
Delimit Scope py_scope with py.
Notation "x <- c1 ;; c2" := (bind c1 (fun x => c2))
(at level 61, c1 at next level, right associativity) : py_scope.
Notation "c1 ;; c2" := (bind c1 (fun _ => c2))
(at level 61, right associativity) : py_scope.
Open Scope py_scope.

(** ** Scalars and arrays *)

Module Num.

Open Scope R_scope.

Inductive scalar : Type :=
| Fin (r : R)
| PInf
| NInf
| NaN.

Definition array : Type := list scalar.

Definition of_reals (l : list R) : array := map Fin l.

Definition fneg (a : scalar) : scalar :=
  match a with
  | Fin r => Fin (- r)
  | PInf => NInf
  | NInf => PInf
  | NaN => NaN
  end.

Definition fadd (a b : scalar) : scalar :=
  match a, b with
  | NaN, _ | _, NaN => NaN
  | Fin x, Fin y => Fin (x + y)
  | PInf, NInf | NInf, PInf => NaN
  | PInf, _ | _, PInf => PInf
  | NInf, _ | _, NInf => NInf
  end.

Definition fsub (a b : scalar) : scalar := fadd a (fneg b).

(** The infinity of the sign of [r], [nan] for [r = 0]. *)
Definition inf_signed (r : R) : scalar :=
  if Rlt_dec 0 r then PInf else if Rlt_dec r 0 then NInf else NaN.

Definition fmul (a b : scalar) : scalar :=
  match a, b with
  | NaN, _ | _, NaN => NaN
  | Fin x, Fin y => Fin (x * y)
  | PInf, Fin y => inf_signed y
  | Fin x, PInf => inf_signed x
  | NInf, Fin y => inf_signed (- y)
  | Fin x, NInf => inf_signed (- x)
  | PInf, PInf | NInf, NInf => PInf
  | PInf, NInf | NInf, PInf => NInf
  end.

(** numpy division: dividing by zero does not raise, it yields an
    infinity, or [nan] for [0 / 0]. *)
Definition fdiv (a b : scalar) : scalar :=
  match a, b with
  | NaN, _ | _, NaN => NaN
  | Fin x, Fin y => if Req_dec_T y 0 then inf_signed x else Fin (x / y)
  | Fin _, PInf | Fin _, NInf => Fin 0
  | PInf, Fin y => if Rlt_dec y 0 then NInf else PInf
  | NInf, Fin y => if Rlt_dec y 0 then PInf else NInf
  | PInf, PInf | PInf, NInf | NInf, PInf | NInf, NInf => NaN
  end.

Definition fabs (a : scalar) : scalar :=
  match a with
  | Fin r => Fin (Rabs r)
  | PInf | NInf => PInf
  | NaN => NaN
  end.

(** [a ** 0.5] on a numpy scalar: [nan] for a negative base. (On a
    negative Python float the power is a complex number, which the
    embedding does not have.) *)
Definition pow_half (a : scalar) : scalar :=
  match a with
  | Fin r => if Rlt_dec r 0 then NaN else Fin (sqrt r)
  | PInf | NInf => PInf
  | NaN => NaN
  end.

(** [a ** 2] *)
Definition square (a : scalar) : scalar := fmul a a.

(** [a == b]: [nan] is equal to nothing. *)
Definition feqb (a b : scalar) : bool :=
  match a, b with
  | Fin x, Fin y => if Req_dec_T x y then true else false
  | PInf, PInf | NInf, NInf => true
  | _, _ => false
  end.

(** [a > b] *)
Definition fgtb (a b : scalar) : bool :=
  match a, b with
  | NaN, _ | _, NaN => false
  | Fin x, Fin y => if Rlt_dec y x then true else false
  | PInf, PInf | NInf, _ | Fin _, PInf => false
  | PInf, _ | Fin _, NInf => true
  end.

(** The smaller of two scalars, [nan] if either is. *)
Definition fmin (a b : scalar) : scalar :=
  match a, b with
  | NaN, _ | _, NaN => NaN
  | _, _ => if fgtb a b then b else a
  end.

(** Entries are paired positionally, up to the shorter operand. On
    operands of one shape this is the elementwise operation of numpy; on
    shapes that differ numpy raises [ValueError] or broadcasts, which is
    not modelled: the statements about whole runs carry the shapes as
    hypotheses. *)
Fixpoint map2 {A B C} (f : A -> B -> C) (l : list A) (l' : list B) : list C :=
  match l, l' with
  | a :: t, b :: t' => f a b :: map2 f t t'
  | _, _ => []
  end.

(** [x + y], [x - y], [x * y] on arrays. *)
Definition vadd (x y : array) : array := map2 fadd x y.
Definition vsub (x y : array) : array := map2 fsub x y.
Definition vmul (x y : array) : array := map2 fmul x y.

(** [a * x] and [x / a] for a scalar [a]. *)
Definition smul (a : scalar) (x : array) : array := map (fmul a) x.
Definition sdiv (x : array) (a : scalar) : array := map (fun v => fdiv v a) x.

Definition fsum (x : array) : scalar := fold_right fadd (Fin 0) x.

(** [xp.amin]: the minimum of an empty array is a [ValueError]. *)
Definition amin {S} (x : array) : M S scalar :=
  match x with
  | [] => raise (ValueError "zero-size array to reduction operation minimum")
  | a :: t => ret (fold_left fmin t a)
  end.

(** A step size is a float or an array ([tau], [sigma] of the primal-dual
    method, [alpha] of the proximal point method). *)
Inductive step : Type :=
| Float (a : scalar)
| Arr (a : array).

(** [t * x], [t * theta], [t / theta] and [xp.amin(xp.abs(t))] for a
    step size [t]. *)
Definition step_apply (t : step) (x : array) : array :=
  match t with
  | Float a => smul a x
  | Arr w => vmul w x
  end.

Definition step_scale (t : step) (theta : scalar) : step :=
  match t with
  | Float a => Float (fmul a theta)
  | Arr w => Arr (map (fun v => fmul v theta) w)
  end.

Definition step_unscale (t : step) (theta : scalar) : step :=
  match t with
  | Float a => Float (fdiv a theta)
  | Arr w => Arr (sdiv w theta)
  end.

Definition step_amin_abs {S} (t : step) : M S scalar :=
  match t with
  | Float a => ret (fabs a)
  | Arr w => amin (map fabs w)
  end.

End Num.

Import Num.

(** ** The numeric operation interface [sigpy.util] *)

Module util.

(** Modelled from the spec: [util.norm] is not part of the sources; the
    spec lists [norm(x)] returning a scalar, the Euclidean norm. *)
Definition norm (x : array) : scalar :=
  pow_half (fsum (map (fun v => square (fabs v)) x)).

(** Modelled from the spec: [util.dot] is not part of the sources; the
    spec lists [dot(x,y)] returning a scalar. *)
Definition dot (x y : array) : scalar := fsum (vmul x y).

(** Modelled from the spec: [util.axpy] is not part of the sources; the
    spec gives [axpy(y, a, x)] as the in-place [y += a*x]. The new value
    of [y] is returned. *)
Definition axpy (y : array) (a : scalar) (x : array) : array :=
  vadd y (smul a x).

(** Modelled from the spec: [util.xpay] is not part of the sources; the
    spec gives [xpay(y, a, x)] as the in-place [y = x + a*y]. The new
    value of [y] is returned. *)
Definition xpay (y : array) (a : scalar) (x : array) : array :=
  vadd x (smul a y).

(** Modelled from the spec: [util.move_to] is not part of the sources;
    the spec gives [move_to(dst, src)] as the in-place replacement of the
    content of [dst] by the values of [src]. The new content of [dst] is
    returned. *)
Definition move_to (dst src : array) : array := src.

(** Modelled from the spec: [util.move] is not part of the sources; it
    places a value on a device and does not change it. *)
Definition move {A} (v : A) : A := v.

End util.

(** ** The iteration engine: class [Alg] *)

Module Alg.

(** The attributes of [Alg]: [max_iter] is set by [__init__], [iter] by
    [init]. *)
Record obj : Type := mk { max_iter : Z; iter : option Z }.

Definition __init__ (max_iter : Z) : obj :=
  {| max_iter := max_iter; iter := None |}.

Definition set_iter (v : option Z) (a : obj) : obj :=
  {| max_iter := max_iter a; iter := v |}.

(** What a subclass brings: where it keeps the attributes of [Alg], and
    the four hooks that [self._init()], [self._update()], [self._done()]
    and [self._cleanup()] dispatch to. *)
Class Subclass (S : Type) : Type := {
  self_alg : S -> obj;
  self_set_alg : obj -> S -> S;
  self_init : M S unit;
  self_update : M S unit;
  self_done : M S bool;
  self_cleanup : M S unit
}.

(** The hooks of the base class. *)
Section Defaults.
Context {S : Type} (alg : S -> obj).

Definition _init : M S unit := ret tt.

Definition _update : M S unit := raise NotImplementedError.

(** [self.iter >= self.max_iter] *)
Definition _done : M S bool :=
  i <- getattr "iter" (fun s => iter (alg s)) ;;
  m <- get (fun s => max_iter (alg s)) ;;
  ret (m <=? i)%Z.

Definition _cleanup : M S unit := ret tt.
End Defaults.

Section Engine.
Context {S : Type} `{Subclass S}.

Definition self_iter (s : S) : option Z := iter (self_alg s).
Definition self_set_iter (v : option Z) (s : S) : S :=
  self_set_alg (set_iter v (self_alg s)) s.

(** [self.iter = 0], then the hook. *)
Definition init : M S unit :=
  modify (self_set_iter (Some 0%Z)) ;;
  self_init.

(** The hook, then [self.iter += 1]. *)
Definition update : M S unit :=
  self_update ;;
  i <- getattr "iter" self_iter ;;
  modify (self_set_iter (Some (i + 1)%Z)).

Definition done : M S bool := self_done.

Definition cleanup : M S unit := self_cleanup.
End Engine.

End Alg.

(** ** Power method *)

Module PowerMethod.

Record obj : Type := mk {
  A : array -> array;
  x : array;
  alg : Alg.obj;
  max_eig : option scalar
}.

Definition set_x (v : array) (s : obj) : obj :=
  {| A := A s; x := v; alg := alg s; max_eig := max_eig s |}.
Definition set_alg (v : Alg.obj) (s : obj) : obj :=
  {| A := A s; x := x s; alg := v; max_eig := max_eig s |}.
Definition set_max_eig (v : option scalar) (s : obj) : obj :=
  {| A := A s; x := x s; alg := alg s; max_eig := v |}.

Definition __init__ (A : array -> array) (x : array) (max_iter : Z) : obj :=
  {| A := A; x := x; alg := Alg.__init__ max_iter; max_eig := None |}.

Definition _init : M obj unit :=
  modify (set_max_eig (Some PInf)).

Definition _update : M obj unit :=
  y <- get (fun s => A s (x s)) ;;
  modify (set_max_eig (Some (util.norm y))) ;;
  dst <- get x ;;
  m <- getattr "max_eig" max_eig ;;
  modify (set_x (util.move_to dst (sdiv y m))).

#[global] Instance subclass : Alg.Subclass obj := {|
  Alg.self_alg := alg;
  Alg.self_set_alg := set_alg;
  Alg.self_init := _init;
  Alg.self_update := _update;
  Alg.self_done := Alg._done alg;
  Alg.self_cleanup := Alg._cleanup
|}.

End PowerMethod.

(** ** Proximal point method *)

Module ProximalPointMethod.

Record obj : Type := mk {
  proxf : step -> array -> array;
  alpha : step;
  x : array;
  alg : Alg.obj
}.

Definition set_x (v : array) (s : obj) : obj :=
  {| proxf := proxf s; alpha := alpha s; x := v; alg := alg s |}.
Definition set_alg (v : Alg.obj) (s : obj) : obj :=
  {| proxf := proxf s; alpha := alpha s; x := x s; alg := v |}.

Definition __init__ (proxf : step -> array -> array) (alpha : step)
           (x : array) (max_iter : Z) : obj :=
  {| proxf := proxf; alpha := alpha; x := x; alg := Alg.__init__ max_iter |}.

Definition _update : M obj unit :=
  dst <- get x ;;
  v <- get (fun s => proxf s (alpha s) (x s)) ;;
  modify (set_x (util.move_to dst v)).

#[global] Instance subclass : Alg.Subclass obj := {|
  Alg.self_alg := alg;
  Alg.self_set_alg := set_alg;
  Alg.self_init := Alg._init;
  Alg.self_update := _update;
  Alg.self_done := Alg._done alg;
  Alg.self_cleanup := Alg._cleanup
|}.

End ProximalPointMethod.

(** ** Gradient method *)

Module GradientMethod.

Local Open Scope R_scope.

(** [z], [t] and [x_old] are allocated by [_init] under the configuration
    flags only; [residual] is created by [_init]. The array that [gradf]
    returns is taken to be one of its own, not its argument. *)
Record obj : Type := mk {
  gradf : array -> array;
  alpha : scalar;
  accelerate : bool;
  proxg : option (scalar -> array -> array);
  x : array;
  alg : Alg.obj;
  z : option array;
  t : option scalar;
  x_old : option array;
  residual : option scalar
}.

Definition set_x (v : array) (s : obj) : obj :=
  {| gradf := gradf s; alpha := alpha s; accelerate := accelerate s;
     proxg := proxg s; x := v; alg := alg s; z := z s; t := t s;
     x_old := x_old s; residual := residual s |}.
Definition set_alg (v : Alg.obj) (s : obj) : obj :=
  {| gradf := gradf s; alpha := alpha s; accelerate := accelerate s;
     proxg := proxg s; x := x s; alg := v; z := z s; t := t s;
     x_old := x_old s; residual := residual s |}.
Definition set_z (v : option array) (s : obj) : obj :=
  {| gradf := gradf s; alpha := alpha s; accelerate := accelerate s;
     proxg := proxg s; x := x s; alg := alg s; z := v; t := t s;
     x_old := x_old s; residual := residual s |}.
Definition set_t (v : option scalar) (s : obj) : obj :=
  {| gradf := gradf s; alpha := alpha s; accelerate := accelerate s;
     proxg := proxg s; x := x s; alg := alg s; z := z s; t := v;
     x_old := x_old s; residual := residual s |}.
Definition set_x_old (v : option array) (s : obj) : obj :=
  {| gradf := gradf s; alpha := alpha s; accelerate := accelerate s;
     proxg := proxg s; x := x s; alg := alg s; z := z s; t := t s;
     x_old := v; residual := residual s |}.
Definition set_residual (v : option scalar) (s : obj) : obj :=
  {| gradf := gradf s; alpha := alpha s; accelerate := accelerate s;
     proxg := proxg s; x := x s; alg := alg s; z := z s; t := t s;
     x_old := x_old s; residual := v |}.

Definition __init__ (gradf : array -> array) (x : array) (alpha : scalar)
           (proxg : option (scalar -> array -> array)) (accelerate : bool)
           (max_iter : Z) : obj :=
  {| gradf := gradf; alpha := alpha; accelerate := accelerate;
     proxg := proxg; x := x; alg := Alg.__init__ max_iter; z := None;
     t := None; x_old := None; residual := None |}.

(** [self.accelerate or self.proxg is not None] *)
Definition keeps_x_old (s : obj) : bool :=
  accelerate s || match proxg s with Some _ => true | None => false end.

Definition _init : M obj unit :=
  acc <- get accelerate ;;
  (if acc then
     xv <- get x ;;
     modify (set_z (Some xv)) ;;
     modify (set_t (Some (Fin 1)))
   else ret tt) ;;
  keep <- get keeps_x_old ;;
  (if keep then
     xv <- get x ;;
     modify (set_x_old (Some xv))
   else ret tt) ;;
  modify (set_residual (Some PInf)).

(** [(1 + (1 + 4 * t_old**2)**0.5) / 2] *)
Definition t_next (t_old : scalar) : scalar :=
  fdiv (fadd (Fin 1) (pow_half (fadd (Fin 1) (fmul (Fin 4) (square t_old)))))
       (Fin 2).

(** [(t_old - 1) / self.t] *)
Definition momentum (t_old t_new : scalar) : scalar :=
  fdiv (fsub t_old (Fin 1)) t_new.

Definition _update : M obj unit :=
  keep <- get keeps_x_old ;;
  (if keep then
     dst <- getattr "x_old" x_old ;;
     src <- get x ;;
     modify (set_x_old (Some (util.move_to dst src)))
   else ret tt) ;;
  acc <- get accelerate ;;
  (if acc then
     dst <- get x ;;
     src <- getattr "z" z ;;
     modify (set_x (util.move_to dst src))
   else ret tt) ;;
  gradf_x <- get (fun s => gradf s (x s)) ;;
  y <- get x ;;
  a <- get alpha ;;
  modify (set_x (util.axpy y (fneg a) gradf_x)) ;;
  pg <- get proxg ;;
  match pg with
  | Some prox =>
      dst <- get x ;;
      v <- get (fun s => prox (alpha s) (x s)) ;;
      modify (set_x (util.move_to dst v))
  | None => ret tt
  end ;;
  (if acc then
     t_old <- getattr "t" t ;;
     modify (set_t (Some (t_next t_old))) ;;
     dst <- getattr "z" z ;;
     xv <- get x ;;
     t_new <- getattr "t" t ;;
     xo <- getattr "x_old" x_old ;;
     modify (set_z (Some (util.move_to dst
                            (vadd xv (smul (momentum t_old t_new) (vsub xv xo))))))
   else ret tt) ;;
  (if keep then
     xv <- get x ;;
     xo <- getattr "x_old" x_old ;;
     a <- get alpha ;;
     modify (set_residual
               (Some (util.move (util.norm (sdiv (vsub xv xo) (pow_half a))))))
   else
     modify (set_residual (Some (util.move (util.norm gradf_x))))).

(** [(self.iter >= self.max_iter) or self.residual == 0] *)
Definition _done : M obj bool :=
  i <- getattr "iter" (fun s => Alg.iter (alg s)) ;;
  m <- get (fun s => Alg.max_iter (alg s)) ;;
  if (m <=? i)%Z then ret true
  else
    r <- getattr "residual" residual ;;
    ret (feqb r (Fin 0)).

Definition _cleanup : M obj unit :=
  acc <- get accelerate ;;
  (if acc then
     delattr "z" z (set_z None) ;;
     delattr "t" t (set_t None)
   else ret tt) ;;
  keep <- get keeps_x_old ;;
  if keep then delattr "x_old" x_old (set_x_old None) else ret tt.

#[global] Instance subclass : Alg.Subclass obj := {|
  Alg.self_alg := alg;
  Alg.self_set_alg := set_alg;
  Alg.self_init := _init;
  Alg.self_update := _update;
  Alg.self_done := _done;
  Alg.self_cleanup := _cleanup
|}.

End GradientMethod.

(** ** Conjugate gradient *)

Module ConjugateGradient.

Local Open Scope R_scope.

(** [rzold] is created by [__init__] and deleted by [_cleanup]; [r], [p],
    [zero_gradient] and [residual] are created by [_init], [alpha] by the
    first [_update] that takes a step. *)
Record obj : Type := mk {
  A : array -> array;
  P : option (array -> array);
  x : array;
  b : array;
  rzold : option scalar;
  alg : Alg.obj;
  r : option array;
  p : option array;
  zero_gradient : option bool;
  residual : option scalar;
  alpha : option scalar
}.

Definition set_x (v : array) (s : obj) : obj :=
  {| A := A s; P := P s; x := v; b := b s; rzold := rzold s; alg := alg s;
     r := r s; p := p s; zero_gradient := zero_gradient s;
     residual := residual s; alpha := alpha s |}.
Definition set_b (v : array) (s : obj) : obj :=
  {| A := A s; P := P s; x := x s; b := v; rzold := rzold s; alg := alg s;
     r := r s; p := p s; zero_gradient := zero_gradient s;
     residual := residual s; alpha := alpha s |}.
Definition set_rzold (v : option scalar) (s : obj) : obj :=
  {| A := A s; P := P s; x := x s; b := b s; rzold := v; alg := alg s;
     r := r s; p := p s; zero_gradient := zero_gradient s;
     residual := residual s; alpha := alpha s |}.
Definition set_alg (v : Alg.obj) (s : obj) : obj :=
  {| A := A s; P := P s; x := x s; b := b s; rzold := rzold s; alg := v;
     r := r s; p := p s; zero_gradient := zero_gradient s;
     residual := residual s; alpha := alpha s |}.
Definition set_r (v : option array) (s : obj) : obj :=
  {| A := A s; P := P s; x := x s; b := b s; rzold := rzold s; alg := alg s;
     r := v; p := p s; zero_gradient := zero_gradient s;
     residual := residual s; alpha := alpha s |}.
Definition set_p (v : option array) (s : obj) : obj :=
  {| A := A s; P := P s; x := x s; b := b s; rzold := rzold s; alg := alg s;
     r := r s; p := v; zero_gradient := zero_gradient s;
     residual := residual s; alpha := alpha s |}.
Definition set_zero_gradient (v : option bool) (s : obj) : obj :=
  {| A := A s; P := P s; x := x s; b := b s; rzold := rzold s; alg := alg s;
     r := r s; p := p s; zero_gradient := v;
     residual := residual s; alpha := alpha s |}.
Definition set_residual (v : option scalar) (s : obj) : obj :=
  {| A := A s; P := P s; x := x s; b := b s; rzold := rzold s; alg := alg s;
     r := r s; p := p s; zero_gradient := zero_gradient s;
     residual := v; alpha := alpha s |}.
Definition set_alpha (v : option scalar) (s : obj) : obj :=
  {| A := A s; P := P s; x := x s; b := b s; rzold := rzold s; alg := alg s;
     r := r s; p := p s; zero_gradient := zero_gradient s;
     residual := residual s; alpha := v |}.

Definition __init__ (A : array -> array) (b x : array)
           (P : option (array -> array)) (max_iter : Z) : obj :=
  {| A := A; P := P; x := x; b := b; rzold := Some PInf;
     alg := Alg.__init__ max_iter; r := None; p := None;
     zero_gradient := None; residual := None; alpha := None |}.

(** [z = self.r] without a preconditioner, [z = self.P(self.r)] with one. *)
Definition precondition : M obj array :=
  pre <- get P ;;
  match pre with
  | None => getattr "r" r
  | Some f => rv <- getattr "r" r ;; ret (f rv)
  end.

(** [self.r] is the array [self.b] itself ([self.r = self.b] in [_init]):
    an in-place write to one is seen through the other. *)
Definition write_r (v : array) : M obj unit :=
  modify (set_r (Some v)) ;;
  modify (set_b v).

(** [p = z.copy()] is a buffer of its own when [max_iter > 1]; otherwise
    [p] is the array [z], and [_update] writes neither [r] nor [p]
    ([iter < max_iter - 1] fails from [iter = 0] on). *)
Definition _init : M obj unit :=
  bv <- get b ;;
  ax <- get (fun s => A s (x s)) ;;
  modify (set_b (vsub bv ax)) ;;
  bv' <- get b ;;
  modify (set_r (Some bv')) ;;
  zv <- precondition ;;
  m <- get (fun s => Alg.max_iter (alg s)) ;;
  (if (1 <? m)%Z then modify (set_p (Some zv))
   else modify (set_p (Some zv))) ;;
  modify (set_zero_gradient (Some false)) ;;
  rv <- getattr "r" r ;;
  modify (set_rzold (Some (util.dot rv zv))) ;;
  rz <- getattr "rzold" rzold ;;
  modify (set_residual (Some (util.move (pow_half rz)))).

Definition _update : M obj unit :=
  pv <- getattr "p" p ;;
  Ap <- get (fun s => A s pv) ;;
  pv' <- getattr "p" p ;;
  let pAp := util.dot pv' Ap in
  if feqb pAp (Fin 0) then
    modify (set_zero_gradient (Some true))
  else
    rz <- getattr "rzold" rzold ;;
    modify (set_alpha (Some (fdiv rz pAp))) ;;
    xv <- get x ;;
    a <- getattr "alpha" alpha ;;
    pv <- getattr "p" p ;;
    modify (set_x (util.axpy xv a pv)) ;;
    i <- getattr "iter" (fun s => Alg.iter (alg s)) ;;
    m <- get (fun s => Alg.max_iter (alg s)) ;;
    (if (i <? m - 1)%Z then
       rv <- getattr "r" r ;;
       a <- getattr "alpha" alpha ;;
       write_r (util.axpy rv (fneg a) Ap) ;;
       zv <- precondition ;;
       rv' <- getattr "r" r ;;
       let rznew := util.dot rv' zv in
       rz <- getattr "rzold" rzold ;;
       let beta := fdiv rznew rz in
       pv <- getattr "p" p ;;
       modify (set_p (Some (util.xpay pv beta zv))) ;;
       modify (set_rzold (Some rznew))
     else ret tt) ;;
    rz <- getattr "rzold" rzold ;;
    modify (set_residual (Some (util.move (pow_half rz)))).

(** [(self.iter >= self.max_iter) or self.zero_gradient or
    self.residual == 0] *)
Definition _done : M obj bool :=
  i <- getattr "iter" (fun s => Alg.iter (alg s)) ;;
  m <- get (fun s => Alg.max_iter (alg s)) ;;
  if (m <=? i)%Z then ret true
  else
    zg <- getattr "zero_gradient" zero_gradient ;;
    if (zg : bool) then ret true
    else
      res <- getattr "residual" residual ;;
      ret (feqb res (Fin 0)).

Definition _cleanup : M obj unit :=
  delattr "r" r (set_r None) ;;
  delattr "p" p (set_p None) ;;
  delattr "rzold" rzold (set_rzold None).

#[global] Instance subclass : Alg.Subclass obj := {|
  Alg.self_alg := alg;
  Alg.self_set_alg := set_alg;
  Alg.self_init := _init;
  Alg.self_update := _update;
  Alg.self_done := _done;
  Alg.self_cleanup := _cleanup
|}.

End ConjugateGradient.

(** ** Newton's method *)

Module NewtonsMethod.

Local Open Scope R_scope.

(** What the top level of [alg.py] binds: the imported modules ([cp] only
    when cupy is enabled) and the classes. A name that a method does not
    assign is looked up here. *)
Inductive global : Type :=
| PyModule (name : string)
| PyClass (name : string).

Definition globals : list (string * global) :=
  [ ("np", PyModule "numpy"); ("tqdm", PyClass "tqdm");
    ("util", PyModule "sigpy.util"); ("config", PyModule "sigpy.config");
    ("cp", PyModule "cupy"); ("Alg", PyClass "Alg");
    ("PowerMethod", PyClass "PowerMethod");
    ("ProximalPointMethod", PyClass "ProximalPointMethod");
    ("GradientMethod", PyClass "GradientMethod");
    ("ConjugateGradient", PyClass "ConjugateGradient");
    ("NewtonsMethod", PyClass "NewtonsMethod");
    ("PrimalDualHybridGradient", PyClass "PrimalDualHybridGradient");
    ("AltMin", PyClass "AltMin") ]%string.

Fixpoint lookup (name : string) (env : list (string * global)) : option global :=
  match env with
  | [] => None
  | (n, g) :: env' => if String.eqb n name then Some g else lookup name env'
  end.

Definition load_global {S} (name : string) : M S global :=
  match lookup name globals with
  | Some g => ret g
  | None => raise (NameError name)
  end.

(** [g * d] for a module or a class [g]: there is no such product. *)
Definition mul_global {S} (g : global) (d : array) : M S array :=
  raise (TypeError "unsupported operand type(s) for *").

Record obj : Type := mk {
  gradf : array -> array;
  hessf : array -> array -> array;
  proxHg : (array -> array) -> array -> array;
  sigma : scalar;
  x : array;
  lamda : scalar;
  alg : Alg.obj
}.

Definition set_x (v : array) (s : obj) : obj :=
  {| gradf := gradf s; hessf := hessf s; proxHg := proxHg s;
     sigma := sigma s; x := v; lamda := lamda s; alg := alg s |}.
Definition set_lamda (v : scalar) (s : obj) : obj :=
  {| gradf := gradf s; hessf := hessf s; proxHg := proxHg s;
     sigma := sigma s; x := x s; lamda := v; alg := alg s |}.
Definition set_alg (v : Alg.obj) (s : obj) : obj :=
  {| gradf := gradf s; hessf := hessf s; proxHg := proxHg s;
     sigma := sigma s; x := x s; lamda := lamda s; alg := v |}.

(** The default of [sigma] is [(3 - 5**0.5) / 2]. *)
Definition default_sigma : scalar :=
  fdiv (fsub (Fin 3) (pow_half (Fin 5))) (Fin 2).

Definition __init__ (gradf : array -> array) (hessf : array -> array -> array)
           (proxHg : (array -> array) -> array -> array) (x : array)
           (max_iter : Z) (sigma : scalar) : obj :=
  {| gradf := gradf; hessf := hessf; proxHg := proxHg; sigma := sigma;
     x := x; lamda := PInf; alg := Alg.__init__ max_iter |}.

(** The last statement, [self.x += alpha * d], reads a name [alpha] that
    [_update] never assigns. *)
Definition _update : M obj unit :=
  hessfx <- get (fun s => hessf s (x s)) ;;
  sv <- get (fun s => proxHg s hessfx (vsub (hessfx (x s)) (gradf s (x s)))) ;;
  d <- get (fun s => vsub sv (x s)) ;;
  modify (set_lamda (pow_half (util.dot d (hessfx d)))) ;;
  xv <- get x ;;
  alpha <- load_global "alpha" ;;
  step <- mul_global alpha d ;;
  modify (set_x (vadd xv step)).

#[global] Instance subclass : Alg.Subclass obj := {|
  Alg.self_alg := alg;
  Alg.self_set_alg := set_alg;
  Alg.self_init := Alg._init;
  Alg.self_update := _update;
  Alg.self_done := Alg._done alg;
  Alg.self_cleanup := Alg._cleanup
|}.

End NewtonsMethod.

(** ** Primal-dual hybrid gradient *)

Module PrimalDualHybridGradient.

Local Open Scope R_scope.

(** The preconditioners [P] and [D] of [__init__] are not stored. *)
Record obj : Type := mk {
  proxfc : step -> array -> array;
  proxg : step -> array -> array;
  A : array -> array;
  AH : array -> array;
  u : array;
  x : array;
  tau : step;
  sigma : step;
  gamma_primal : scalar;
  gamma_dual : scalar;
  alg : Alg.obj;
  x_ext : option array;
  u_old : option array;
  x_old : option array
}.

Definition set_u (v : array) (s : obj) : obj :=
  {| proxfc := proxfc s; proxg := proxg s; A := A s; AH := AH s; u := v;
     x := x s; tau := tau s; sigma := sigma s;
     gamma_primal := gamma_primal s; gamma_dual := gamma_dual s;
     alg := alg s; x_ext := x_ext s; u_old := u_old s; x_old := x_old s |}.
Definition set_x (v : array) (s : obj) : obj :=
  {| proxfc := proxfc s; proxg := proxg s; A := A s; AH := AH s; u := u s;
     x := v; tau := tau s; sigma := sigma s;
     gamma_primal := gamma_primal s; gamma_dual := gamma_dual s;
     alg := alg s; x_ext := x_ext s; u_old := u_old s; x_old := x_old s |}.
Definition set_tau (v : step) (s : obj) : obj :=
  {| proxfc := proxfc s; proxg := proxg s; A := A s; AH := AH s; u := u s;
     x := x s; tau := v; sigma := sigma s;
     gamma_primal := gamma_primal s; gamma_dual := gamma_dual s;
     alg := alg s; x_ext := x_ext s; u_old := u_old s; x_old := x_old s |}.
Definition set_sigma (v : step) (s : obj) : obj :=
  {| proxfc := proxfc s; proxg := proxg s; A := A s; AH := AH s; u := u s;
     x := x s; tau := tau s; sigma := v;
     gamma_primal := gamma_primal s; gamma_dual := gamma_dual s;
     alg := alg s; x_ext := x_ext s; u_old := u_old s; x_old := x_old s |}.
Definition set_alg (v : Alg.obj) (s : obj) : obj :=
  {| proxfc := proxfc s; proxg := proxg s; A := A s; AH := AH s; u := u s;
     x := x s; tau := tau s; sigma := sigma s;
     gamma_primal := gamma_primal s; gamma_dual := gamma_dual s;
     alg := v; x_ext := x_ext s; u_old := u_old s; x_old := x_old s |}.
Definition set_x_ext (v : option array) (s : obj) : obj :=
  {| proxfc := proxfc s; proxg := proxg s; A := A s; AH := AH s; u := u s;
     x := x s; tau := tau s; sigma := sigma s;
     gamma_primal := gamma_primal s; gamma_dual := gamma_dual s;
     alg := alg s; x_ext := v; u_old := u_old s; x_old := x_old s |}.
Definition set_u_old (v : option array) (s : obj) : obj :=
  {| proxfc := proxfc s; proxg := proxg s; A := A s; AH := AH s; u := u s;
     x := x s; tau := tau s; sigma := sigma s;
     gamma_primal := gamma_primal s; gamma_dual := gamma_dual s;
     alg := alg s; x_ext := x_ext s; u_old := v; x_old := x_old s |}.
Definition set_x_old (v : option array) (s : obj) : obj :=
  {| proxfc := proxfc s; proxg := proxg s; A := A s; AH := AH s; u := u s;
     x := x s; tau := tau s; sigma := sigma s;
     gamma_primal := gamma_primal s; gamma_dual := gamma_dual s;
     alg := alg s; x_ext := x_ext s; u_old := u_old s; x_old := v |}.

Definition __init__ (proxfc proxg : step -> array -> array)
           (A AH : array -> array) (x u : array) (tau sigma : step)
           (gamma_primal gamma_dual : scalar) (max_iter : Z) : obj :=
  {| proxfc := proxfc; proxg := proxg; A := A; AH := AH; u := u; x := x;
     tau := tau; sigma := sigma; gamma_primal := gamma_primal;
     gamma_dual := gamma_dual; alg := Alg.__init__ max_iter;
     x_ext := None; u_old := None; x_old := None |}.

Definition _init : M obj unit :=
  xv <- get x ;;
  modify (set_x_ext (Some xv)) ;;
  uv <- get u ;;
  modify (set_u_old (Some uv)) ;;
  xv <- get x ;;
  modify (set_x_old (Some xv)) ;;
  Alg._init.

(** The step-size adaptation of [_update]; the value returned is [theta]. *)
Definition adapt : M obj scalar :=
  gp <- get gamma_primal ;;
  gd <- get gamma_dual ;;
  if fgtb gp (Fin 0) && feqb gd (Fin 0) then
    tv <- get tau ;;
    m <- step_amin_abs tv ;;
    let theta :=
      fdiv (Fin 1) (pow_half (fadd (Fin 1) (fmul (fmul (Fin 2) gp) m))) in
    tv <- get tau ;;
    modify (set_tau (step_scale tv theta)) ;;
    sg <- get sigma ;;
    modify (set_sigma (step_unscale sg theta)) ;;
    ret theta
  else if feqb gp (Fin 0) && fgtb gd (Fin 0) then
    sg <- get sigma ;;
    m <- step_amin_abs sg ;;
    let theta :=
      fdiv (Fin 1) (pow_half (fadd (Fin 1) (fmul (fmul (Fin 2) gd) m))) in
    tv <- get tau ;;
    modify (set_tau (step_unscale tv theta)) ;;
    sg <- get sigma ;;
    modify (set_sigma (step_scale sg theta)) ;;
    ret theta
  else
    ret (Fin 1).

Definition _update : M obj unit :=
  dst <- getattr "u_old" u_old ;;
  src <- get u ;;
  modify (set_u_old (Some (util.move_to dst src))) ;;
  dst <- getattr "x_old" x_old ;;
  src <- get x ;;
  modify (set_x_old (Some (util.move_to dst src))) ;;
  dst <- get u ;;
  sg <- get sigma ;;
  uv <- get u ;;
  xe <- getattr "x_ext" x_ext ;;
  v <- get (fun s => proxfc s sg (vadd uv (step_apply sg (A s xe)))) ;;
  modify (set_u (util.move_to dst v)) ;;
  dst <- get x ;;
  tv <- get tau ;;
  v <- get (fun s => proxg s tv (vsub (x s) (step_apply tv (AH s (u s))))) ;;
  modify (set_x (util.move_to dst v)) ;;
  theta <- adapt ;;
  dst <- getattr "x_ext" x_ext ;;
  xv <- get x ;;
  xo <- getattr "x_old" x_old ;;
  modify (set_x_ext (Some (util.move_to dst
                             (vadd xv (smul theta (vsub xv xo)))))).

Definition _cleanup : M obj unit :=
  delattr "x_ext" x_ext (set_x_ext None) ;;
  delattr "u_old" u_old (set_u_old None) ;;
  delattr "x_old" x_old (set_x_old None).

#[global] Instance subclass : Alg.Subclass obj := {|
  Alg.self_alg := alg;
  Alg.self_set_alg := set_alg;
  Alg.self_init := _init;
  Alg.self_update := _update;
  Alg.self_done := Alg._done alg;
  Alg.self_cleanup := _cleanup
|}.

End PrimalDualHybridGradient.

(** ** Alternating minimization *)

Module AltMin.

Section WithEnv.

(** The variables that the closures [min1] and [min2] capture and update. *)
Variable Env : Type.

Record obj : Type := mk {
  min1 : Env -> Env;
  min2 : Env -> Env;
  env : Env;
  alg : Alg.obj
}.

Definition set_env (v : Env) (s : obj) : obj :=
  {| min1 := min1 s; min2 := min2 s; env := v; alg := alg s |}.
Definition set_alg (v : Alg.obj) (s : obj) : obj :=
  {| min1 := min1 s; min2 := min2 s; env := env s; alg := v |}.

Definition __init__ (min1 min2 : Env -> Env) (e : Env) (max_iter : Z) : obj :=
  {| min1 := min1; min2 := min2; env := e; alg := Alg.__init__ max_iter |}.

Definition _update : M obj unit :=
  modify (fun s => set_env (min1 s (env s)) s) ;;
  modify (fun s => set_env (min2 s (env s)) s).

#[global] Instance subclass : Alg.Subclass obj := {|
  Alg.self_alg := alg;
  Alg.self_set_alg := set_alg;
  Alg.self_init := Alg._init;
  Alg.self_update := _update;
  Alg.self_done := Alg._done alg;
  Alg.self_cleanup := Alg._cleanup
|}.

End WithEnv.

End AltMin.

(** ** The seven solvers as one type *)

Module Solver.

Section WithEnv.

Variable Env : Type.

(** A solver object is an instance of one of the seven subclasses of
    [Alg]; a life-cycle call dispatches on the class. *)
Inductive obj : Type :=
| Power (s : PowerMethod.obj)
| ProximalPoint (s : ProximalPointMethod.obj)
| Gradient (s : GradientMethod.obj)
| Conjugate (s : ConjugateGradient.obj)
| Newtons (s : NewtonsMethod.obj)
| PrimalDual (s : PrimalDualHybridGradient.obj)
| Alternating (s : AltMin.obj Env).

Definition alg (v : obj) : Alg.obj :=
  match v with
  | Power s => PowerMethod.alg s
  | ProximalPoint s => ProximalPointMethod.alg s
  | Gradient s => GradientMethod.alg s
  | Conjugate s => ConjugateGradient.alg s
  | Newtons s => NewtonsMethod.alg s
  | PrimalDual s => PrimalDualHybridGradient.alg s
  | Alternating s => AltMin.alg s
  end.

Definition iter (v : obj) : option Z := Alg.iter (alg v).
Definition max_iter (v : obj) : Z := Alg.max_iter (alg v).

Definition init : M obj unit :=
  fun v =>
    match v with
    | Power s => lift Power (Alg.init s)
    | ProximalPoint s => lift ProximalPoint (Alg.init s)
    | Gradient s => lift Gradient (Alg.init s)
    | Conjugate s => lift Conjugate (Alg.init s)
    | Newtons s => lift Newtons (Alg.init s)
    | PrimalDual s => lift PrimalDual (Alg.init s)
    | Alternating s => lift Alternating (Alg.init s)
    end.

Definition update : M obj unit :=
  fun v =>
    match v with
    | Power s => lift Power (Alg.update s)
    | ProximalPoint s => lift ProximalPoint (Alg.update s)
    | Gradient s => lift Gradient (Alg.update s)
    | Conjugate s => lift Conjugate (Alg.update s)
    | Newtons s => lift Newtons (Alg.update s)
    | PrimalDual s => lift PrimalDual (Alg.update s)
    | Alternating s => lift Alternating (Alg.update s)
    end.

Definition done : M obj bool :=
  fun v =>
    match v with
    | Power s => lift Power (Alg.done s)
    | ProximalPoint s => lift ProximalPoint (Alg.done s)
    | Gradient s => lift Gradient (Alg.done s)
    | Conjugate s => lift Conjugate (Alg.done s)
    | Newtons s => lift Newtons (Alg.done s)
    | PrimalDual s => lift PrimalDual (Alg.done s)
    | Alternating s => lift Alternating (Alg.done s)
    end.

End WithEnv.

End Solver.

(** ** Notions used by the statements *)

(** The sum of the squares of the entries of a real array. *)
Definition sumsq (ys : list R) : R :=
  fold_right (fun y acc => Rabs y * Rabs y + acc)%R 0%R ys.

Definition is_some {A} (o : option A) : bool :=
  match o with Some _ => true | None => false end.

(** The attributes that [init] creates on a gradient method are there:
    the state of the object between [init()] and [cleanup()]. *)
Definition GradientMethod_initialised (s : GradientMethod.obj) : bool :=
  is_some (Alg.iter (GradientMethod.alg s)) &&
  is_some (GradientMethod.residual s) &&
  (if GradientMethod.accelerate s
   then is_some (GradientMethod.z s) && is_some (GradientMethod.t s)
   else true) &&
  (if GradientMethod.keeps_x_old s
   then is_some (GradientMethod.x_old s)
   else true).

(** The same for the primal-dual method. *)
Definition PDHG_initialised (s : PrimalDualHybridGradient.obj) : bool :=
  is_some (Alg.iter (PrimalDualHybridGradient.alg s)) &&
  is_some (PrimalDualHybridGradient.x_ext s) &&
  is_some (PrimalDualHybridGradient.u_old s) &&
  is_some (PrimalDualHybridGradient.x_old s).

(** The same for conjugate gradient. *)
Definition ConjugateGradient_initialised (s : ConjugateGradient.obj) : bool :=
  is_some (Alg.iter (ConjugateGradient.alg s)) &&
  is_some (ConjugateGradient.rzold s) &&
  is_some (ConjugateGradient.r s) &&
  is_some (ConjugateGradient.p s) &&
  is_some (ConjugateGradient.zero_gradient s) &&
  is_some (ConjugateGradient.residual s).

(** A step size that has a minimum: a float or a non-empty array. *)
Definition step_nonempty (t : step) : bool :=
  match t with
  | Float _ => true
  | Arr [] => false
  | Arr (_ :: _) => true
  end.

(** The entry of [x + 0 * d] for an entry [a] of [x] and an entry [d] of
    [d]: [a] where [d] is finite, [nan] where [d] is infinite or [nan]. *)
Definition where_finite (a d : scalar) : scalar :=
  match d with Fin _ => a | _ => NaN end.

(** An operator that takes arrays of [n] entries to arrays of [n']
    entries. *)
Definition maps_shape (n n' : nat) (f : array -> array) : Prop :=
  forall v, List.length v = n -> List.length (f v) = n'.

(** A step size that fits arrays of [n] entries: a float, or an array of
    [n] entries. *)
Definition step_shape (n : nat) (t : step) : Prop :=
  match t with
  | Float _ => True
  | Arr w => List.length w = n
  end.

(** The arrays of a conjugate gradient object have [n] entries each, and
    its operators keep that shape. *)
Definition ConjugateGradient_shaped (n : nat) (s : ConjugateGradient.obj) : Prop :=
  List.length (ConjugateGradient.x s) = n /\
  List.length (ConjugateGradient.b s) = n /\
  (forall pv, ConjugateGradient.p s = Some pv -> List.length pv = n) /\
  maps_shape n n (ConjugateGradient.A s) /\
  (forall pre, ConjugateGradient.P s = Some pre -> maps_shape n n pre).

(** The primal arrays of a primal-dual object have [nx] entries and the
    dual ones [nu], and its operators and step sizes fit these shapes. *)
Definition PDHG_shaped (nx nu : nat) (s : PrimalDualHybridGradient.obj) : Prop :=
  List.length (PrimalDualHybridGradient.x s) = nx /\
  List.length (PrimalDualHybridGradient.u s) = nu /\
  (forall xe, PrimalDualHybridGradient.x_ext s = Some xe ->
              List.length xe = nx) /\
  step_shape nx (PrimalDualHybridGradient.tau s) /\
  step_shape nu (PrimalDualHybridGradient.sigma s) /\
  maps_shape nx nu (PrimalDualHybridGradient.A s) /\
  maps_shape nu nx (PrimalDualHybridGradient.AH s) /\
  (forall t, maps_shape nu nu (PrimalDualHybridGradient.proxfc s t)) /\
  (forall t, maps_shape nx nx (PrimalDualHybridGradient.proxg s t)).

(** [1 / (1 + 2 * gamma * m)**0.5], the factor [theta] of the step-size
    adaptation of the primal-dual method. *)
Definition PDHG_theta (gamma m : scalar) : scalar :=
  fdiv (Fin 1%R) (pow_half (fadd (Fin 1%R) (fmul (fmul (Fin 2%R) gamma) m))).

(** What [xp.amin(xp.abs(t))] can return: a finite number that is not
    negative, [inf] or [nan]. *)
Definition abs_value (m : scalar) : Prop :=
  match m with
  | Fin r => (0 <= r)%R
  | NInf => False
  | PInf | NaN => True
  end.

(** * Properties *)

Unset Implicit Arguments.

(** ** Arithmetic of real arrays *)

Section RealArrays.

Local Open Scope R_scope.

Lemma sumsq_nonneg (ys : list R) : 0 <= sumsq ys.
Proof.
  induction ys as [|y ys IH]; simpl.
  - lra.
  - pose proof (Rabs_pos y). nra.
Qed.

Lemma fsum_squares (ys : list R) :
  fsum (map (fun v => square (fabs v)) (of_reals ys)) = Fin (sumsq ys).
Proof.
  induction ys as [|y ys IH]; [reflexivity|].
  change (fadd (square (fabs (Fin y)))
               (fsum (map (fun v => square (fabs v)) (of_reals ys)))
          = Fin (sumsq (y :: ys))).
  rewrite IH. reflexivity.
Qed.

Lemma pow_half_nonneg (r : R) : 0 <= r -> pow_half (Fin r) = Fin (sqrt r).
Proof.
  intros Hr. unfold pow_half. destruct (Rlt_dec r 0); [lra | reflexivity].
Qed.

Lemma norm_of_reals (ys : list R) :
  util.norm (of_reals ys) = Fin (sqrt (sumsq ys)).
Proof.
  unfold util.norm. rewrite fsum_squares.
  apply pow_half_nonneg, sumsq_nonneg.
Qed.

Lemma fdiv_fin (a n : R) : n <> 0 -> fdiv (Fin a) (Fin n) = Fin (a / n).
Proof.
  intros Hn. unfold fdiv. destruct (Req_dec_T n 0); [contradiction | reflexivity].
Qed.

Lemma sdiv_of_reals (ys : list R) (n : R) :
  n <> 0 -> sdiv (of_reals ys) (Fin n) = of_reals (map (fun y => y / n) ys).
Proof.
  intros Hn. unfold sdiv, of_reals. rewrite !map_map.
  apply map_ext. intros a. now apply fdiv_fin.
Qed.

Lemma sumsq_zeros (n : nat) : sumsq (repeat 0 n) = 0.
Proof.
  induction n as [|n IH]; simpl; [reflexivity|].
  rewrite IH, Rabs_R0. ring.
Qed.

Lemma of_reals_zeros (n : nat) : of_reals (repeat 0 n) = repeat (Fin 0) n.
Proof. induction n as [|n IH]; simpl; [reflexivity | now rewrite IH]. Qed.

Lemma norm_zeros (n : nat) : util.norm (repeat (Fin 0) n) = Fin 0.
Proof.
  rewrite <- of_reals_zeros, norm_of_reals, sumsq_zeros. now rewrite sqrt_0.
Qed.

Lemma fdiv_zero_zero : fdiv (Fin 0) (Fin 0) = NaN.
Proof.
  unfold fdiv, inf_signed.
  destruct (Req_dec_T 0 0) as [_|H]; [|now elim H].
  destruct (Rlt_dec 0 0); [lra | reflexivity].
Qed.

Lemma sdiv_zeros_zero (n : nat) : sdiv (repeat (Fin 0) n) (Fin 0) = repeat NaN n.
Proof.
  induction n as [|n IH]; [reflexivity|].
  change (fdiv (Fin 0) (Fin 0) :: sdiv (repeat (Fin 0) n) (Fin 0)
          = NaN :: repeat NaN n).
  now rewrite IH, fdiv_zero_zero.
Qed.

Lemma feqb_eq (a : scalar) (r : R) : feqb a (Fin r) = true <-> a = Fin r.
Proof.
  destruct a as [x| | |]; simpl; try (split; discriminate).
  destruct (Req_dec_T x r) as [->|Hne]; split; intros H; try reflexivity.
  - discriminate.
  - injection H as ->. now elim Hne.
Qed.

End RealArrays.

(** ** The iteration engine *)

Section EngineFacts.

Context {S : Type} `{Alg.Subclass S}.

(** [update()] runs the hook and then counts the iteration. *)
Lemma update_returns (s s1 : S) (i : Z) :
  Alg.self_update s = Return tt s1 ->
  Alg.self_iter s1 = Some i ->
  Alg.update s = Return tt (Alg.self_set_iter (Some (i + 1)%Z) s1).
Proof.
  intros Hu Hi. unfold Alg.update, bind, getattr, modify.
  now rewrite Hu, Hi.
Qed.

(** An exception of the hook leaves [update()] before the counter is
    touched. *)
Lemma update_raises (s s1 : S) (e : exn) :
  Alg.self_update s = Raise e s1 ->
  Alg.update s = Raise e s1.
Proof.
  intros Hu. unfold Alg.update, bind. now rewrite Hu.
Qed.

End EngineFacts.

(** The default termination predicate compares the counter with
    [max_iter] and reads nothing else. *)
Lemma default_done {S : Type} (alg : S -> Alg.obj) (s : S) (i : Z) :
  Alg.iter (alg s) = Some i ->
  Alg._done alg s = Return (Alg.max_iter (alg s) <=? i)%Z s.
Proof.
  intros Hi. unfold Alg._done, bind, getattr, get, ret. now rewrite Hi.
Qed.

(** ** Power method *)

(** The state after one [update()] of the power method. *)
Lemma PowerMethod_update_state (s : PowerMethod.obj) (i : Z) :
  Alg.iter (PowerMethod.alg s) = Some i ->
  let y := PowerMethod.A s (PowerMethod.x s) in
  Alg.update s =
  Return tt
    (PowerMethod.set_alg
       (Alg.set_iter (Some (i + 1)%Z) (PowerMethod.alg s))
       (PowerMethod.set_x (sdiv y (util.norm y))
          (PowerMethod.set_max_eig (Some (util.norm y)) s))).
Proof.
  intros Hi y. destruct s as [A x alg me]. simpl in Hi, y.
  unfold Alg.update, bind, getattr. simpl.
  unfold Alg.self_iter. simpl. rewrite Hi. reflexivity.
Qed.

(** C7. Every [update()] of the power method sets [max_eig] to the norm of
    [A(x)] and replaces [x] by [A(x) / max_eig], whatever [A(x)] is, and
    counts one iteration; [done()] is the default predicate: it returns
    true exactly when the iteration counter has reached [max_iter]. *)
Theorem PowerMethod_update_normalises (s : PowerMethod.obj) (i : Z) :
  Alg.iter (PowerMethod.alg s) = Some i ->
  let y := PowerMethod.A s (PowerMethod.x s) in
  exists s',
    Alg.update s = Return tt s' /\
    PowerMethod.max_eig s' = Some (util.norm y) /\
    PowerMethod.x s' = sdiv y (util.norm y) /\
    Alg.iter (PowerMethod.alg s') = Some (i + 1)%Z /\
    Alg.done s = Alg._done PowerMethod.alg s /\
    exists b, Alg.done s = Return b s /\
              (b = true <-> (Alg.max_iter (PowerMethod.alg s) <= i)%Z).
Proof.
  intros Hi y. pose proof (PowerMethod_update_state s i Hi) as Hu.
  eexists. split; [exact Hu|].
  split; [reflexivity|]. split; [reflexivity|]. split; [reflexivity|].
  split; [reflexivity|].
  exists (Alg.max_iter (PowerMethod.alg s) <=? i)%Z. split.
  - unfold Alg.done. simpl. now apply default_done.
  - apply Z.leb_le.
Qed.

Lemma PowerMethod_update_normalises_witness :
  let s := final (Alg.init (PowerMethod.__init__ (fun v => v)
                                                 (of_reals [3; 4]%R) 30)) in
  exists s',
    Alg.update s = Return tt s' /\
    PowerMethod.max_eig s' = Some (util.norm (of_reals [3; 4]%R)) /\
    PowerMethod.x s'
    = sdiv (of_reals [3; 4]%R) (util.norm (of_reals [3; 4]%R)).
Proof.
  intros s.
  destruct (PowerMethod_update_normalises s 0%Z eq_refl)
    as (s' & Hu & Hm & Hx & _).
  exists s'. split; [exact Hu|]. split; [exact Hm | exact Hx].
Defined.

(** The consequence that C7 draws, [norm(x) == 1] after every update with
    a nonzero [A(x)], fails: with [A(x) = [inf]] the norm is [inf], the
    quotient [inf / inf] is [nan], and so is the norm of the new [x]. *)
Lemma PowerMethod_norm_counterexample :
  let s := final (Alg.init (PowerMethod.__init__ (fun v => v) [PInf] 30)) in
  exists s',
    Alg.update s = Return tt s' /\
    PowerMethod.A s (PowerMethod.x s) = [PInf] /\
    PowerMethod.max_eig s' = Some PInf /\
    PowerMethod.x s' = [NaN] /\
    util.norm (PowerMethod.x s') = NaN /\
    feqb (util.norm (PowerMethod.x s')) (Fin 1%R) = false.
Proof.
  intros s.
  exists (PowerMethod.mk (fun v => v) [NaN] (Alg.mk 30 (Some 1%Z))
                         (Some PInf)).
  repeat split.
Qed.

(** C9. The power method divides by [norm(A(x))] without a guard: when
    [A(x)] is the zero array, [update()] returns normally with
    [max_eig = 0] and every entry of [x] replaced by [0 / 0], that is by
    [nan]; nothing is raised and no flag is set. *)
Theorem PowerMethod_update_zero_division (s : PowerMethod.obj) (i : Z) (n : nat) :
  Alg.iter (PowerMethod.alg s) = Some i ->
  PowerMethod.A s (PowerMethod.x s) = repeat (Fin 0%R) n ->
  exists s',
    Alg.update s = Return tt s' /\
    PowerMethod.max_eig s' = Some (Fin 0%R) /\
    PowerMethod.x s' = sdiv (PowerMethod.A s (PowerMethod.x s)) (Fin 0%R) /\
    PowerMethod.x s' = repeat NaN n.
Proof.
  intros Hi Hy. pose proof (PowerMethod_update_state s i Hi) as Hu.
  cbv zeta in Hu. rewrite Hy, norm_zeros in Hu.
  eexists. split; [exact Hu|].
  split; [reflexivity|]. split; [now rewrite Hy|].
  cbn [PowerMethod.x PowerMethod.set_alg PowerMethod.set_x].
  apply sdiv_zeros_zero.
Qed.

Lemma PowerMethod_update_zero_division_witness :
  let s := final (Alg.init (PowerMethod.__init__ (fun v => smul (Fin 0%R) v)
                                                 [Fin 0%R; Fin 0%R] 30)) in
  exists s',
    Alg.update s = Return tt s' /\ PowerMethod.x s' = [NaN; NaN].
Proof.
  intros s.
  assert (Hy : PowerMethod.A s (PowerMethod.x s) = repeat (Fin 0%R) 2).
  { simpl. repeat f_equal; ring. }
  destruct (PowerMethod_update_zero_division s 0%Z 2 eq_refl Hy)
    as (s' & Hu & _ & _ & Hx).
  exists s'. split; [exact Hu | exact Hx].
Defined.

(** ** Gradient method *)

Section GradientMethodFacts.





End GradientMethodFacts.



(** ** Gradient method: life cycle *)

(** [init()] returns and creates every attribute the later phases read. *)
Lemma GradientMethod_init_initialised (o : GradientMethod.obj) :
  exists s,
    Alg.init o = Return tt s /\
    GradientMethod_initialised s = true /\
    Alg.iter (GradientMethod.alg s) = Some 0%Z.
Proof.
  destruct o as [gradf alpha acc proxg x alg z t x_old res].
  destruct acc, proxg; eexists; (split; [reflexivity|]); split; reflexivity.
Qed.

(** [update()] returns on an initialised object, keeps it initialised and
    counts one iteration. *)
Lemma GradientMethod_update_initialised (s : GradientMethod.obj) :
  GradientMethod_initialised s = true ->
  exists s' i,
    Alg.update s = Return tt s' /\
    GradientMethod_initialised s' = true /\
    Alg.iter (GradientMethod.alg s) = Some i /\
    Alg.iter (GradientMethod.alg s') = Some (i + 1)%Z.
Proof.
  destruct s as [gradf alpha acc proxg x [m it] z t x_old res].
  unfold GradientMethod_initialised, GradientMethod.keeps_x_old. simpl.
  destruct it as [i|]; [|discriminate].
  destruct res as [res|]; [|discriminate].
  destruct acc, proxg as [prox|], z as [zv|], t as [tv|], x_old as [xo|];
    simpl; try discriminate; intros _;
    eexists; exists i; (split; [reflexivity|]); repeat split.
Qed.

Lemma GradientMethod_run_initialised (k : nat) :
  forall s : GradientMethod.obj,
    GradientMethod_initialised s = true ->
    exists s',
      repeat_call k Alg.update s = Return tt s' /\
      GradientMethod_initialised s' = true.
Proof.
  induction k as [|k IH]; intros s Hs.
  - exists s. split; [reflexivity | exact Hs].
  - destruct (GradientMethod_update_initialised s Hs) as (s1 & i & Hu & Hs1 & _).
    destruct (IH s1 Hs1) as (s' & Hrun & Hs').
    exists s'. split; [|exact Hs'].
    cbn [repeat_call]. unfold bind at 1. now rewrite Hu.
Qed.

(** The termination predicate on an initialised object. *)
Lemma GradientMethod_done_initialised (s : GradientMethod.obj) :
  GradientMethod_initialised s = true ->
  exists i res b,
    Alg.iter (GradientMethod.alg s) = Some i /\
    GradientMethod.residual s = Some res /\
    Alg.done s = Return b s /\
    (b = true <->
     (Alg.max_iter (GradientMethod.alg s) <= i)%Z \/ res = Fin 0%R).
Proof.
  destruct s as [gradf alpha acc proxg x [m it] z t x_old res].
  unfold GradientMethod_initialised. simpl.
  destruct it as [i|]; [|discriminate].
  destruct res as [res|]; [|discriminate]. intros _.
  exists i, res.
  unfold Alg.done, Alg.self_done, GradientMethod.subclass,
    GradientMethod._done, bind, getattr, get, ret. simpl.
  destruct (Z.leb_spec m i) as [Hle|Hlt].
  - exists true. repeat split; auto.
  - exists (feqb res (Fin 0%R)). repeat split; auto.
    + intros Hb. right. now apply feqb_eq.
    + intros [Hle|Hres]; [lia | now apply feqb_eq].
Qed.

(** C8. On a gradient method, after [init()] and any number of [update()]
    calls, [done()] returns true if and only if the iteration counter has
    reached [max_iter] or the residual is exactly 0. *)
Theorem GradientMethod_done_iff (o : GradientMethod.obj) (k : nat) :
  exists s i res b,
    (Alg.init ;; repeat_call k Alg.update) o = Return tt s /\
    Alg.iter (GradientMethod.alg s) = Some i /\
    GradientMethod.residual s = Some res /\
    Alg.done s = Return b s /\
    (b = true <->
     (Alg.max_iter (GradientMethod.alg s) <= i)%Z \/ res = Fin 0%R).
Proof.
  destruct (GradientMethod_init_initialised o) as (s0 & Hinit & Hs0 & _).
  destruct (GradientMethod_run_initialised k s0 Hs0) as (s & Hrun & Hs).
  destruct (GradientMethod_done_initialised s Hs) as (i & res & b & H).
  exists s, i, res, b. split; [|exact H].
  unfold bind. now rewrite Hinit.
Qed.

(** ** Gradient method: the first accelerated step *)

Section FirstAcceleratedStep.

Local Open Scope R_scope.

Lemma t_next_one : GradientMethod.t_next (Fin 1) = Fin ((1 + sqrt 5) / 2).
Proof.
  unfold GradientMethod.t_next, square. cbn [fmul fadd].
  rewrite pow_half_nonneg by lra. cbn [fadd].
  rewrite fdiv_fin by lra.
  replace (1 + 4 * (1 * 1)) with 5 by ring. reflexivity.
Qed.

(** With [t = 1] the extrapolation weight of the first update is 0. *)
Lemma momentum_first :
  GradientMethod.momentum (Fin 1) (GradientMethod.t_next (Fin 1)) = Fin 0.
Proof.
  rewrite t_next_one. unfold GradientMethod.momentum. cbn [fsub fneg fadd].
  pose proof (sqrt_pos 5).
  rewrite fdiv_fin by lra. f_equal. unfold Rdiv. ring.
Qed.

(** Adding [0 * d] to [a]: [a] again when [d] is finite, [nan] when [d]
    is infinite or [nan]. *)
Lemma add_zero_times (a d : scalar) :
  fadd a (fmul (Fin 0) d) = where_finite a d.
Proof.
  assert (H0 : inf_signed 0 = NaN).
  { unfold inf_signed. destruct (Rlt_dec 0 0); [lra|reflexivity]. }
  assert (H0' : inf_signed (- 0) = NaN) by (rewrite Ropp_0; exact H0).
  destruct d as [q| | |]; cbn [fmul where_finite].
  - destruct a as [r| | |]; cbn [fadd]; try reflexivity. f_equal. ring.
  - rewrite H0. now destruct a.
  - rewrite H0'. now destruct a.
  - now destruct a.
Qed.

(** Extrapolating with weight 0. *)
Lemma extrapolate_zero (x d : array) :
  vadd x (smul (Fin 0) d) = map2 where_finite x d.
Proof.
  unfold vadd, smul. revert d.
  induction x as [|a x IH]; intros [|e d]; try reflexivity.
  cbn [map map2]. now rewrite IH, add_zero_times.
Qed.

End FirstAcceleratedStep.

(** C10. With [accelerate] true, [init()] sets the momentum coefficient
    [t] to 1, so in the first [update()] the extrapolation weight
    [(t_old - 1) / t_new] is 0; the iterate [x] after that update is the
    one of the plain (proximal) gradient step from the same point; and the
    momentum point is [z = x + 0 * (x - x_old)]: an entry of [z] is the
    entry of [x] where the entry of [x - x_old] is finite, and [nan]
    where that one is infinite or [nan]. *)
Theorem GradientMethod_first_accelerated_step
        (gradf : array -> array) (x0 : array) (alpha : scalar)
        (proxg : option (scalar -> array -> array)) (max_iter : Z) :
  exists s0 s1 s1',
    Alg.init (GradientMethod.__init__ gradf x0 alpha proxg true max_iter)
    = Return tt s0 /\
    GradientMethod.t s0 = Some (Fin 1%R) /\
    GradientMethod.z s0 = Some (GradientMethod.x s0) /\
    Alg.update s0 = Return tt s1 /\
    GradientMethod.t s1 = Some (GradientMethod.t_next (Fin 1%R)) /\
    GradientMethod.momentum (Fin 1%R) (GradientMethod.t_next (Fin 1%R))
    = Fin 0%R /\
    (Alg.init ;; Alg.update)
      (GradientMethod.__init__ gradf x0 alpha proxg false max_iter)
    = Return tt s1' /\
    GradientMethod.x s1 = GradientMethod.x s1' /\
    GradientMethod.x_old s1 = Some x0 /\
    GradientMethod.z s1
    = Some (vadd (GradientMethod.x s1)
                 (smul (Fin 0%R) (vsub (GradientMethod.x s1) x0))) /\
    GradientMethod.z s1
    = Some (map2 where_finite (GradientMethod.x s1)
                 (vsub (GradientMethod.x s1) x0)).
Proof.
  set (xg := util.axpy x0 (fneg alpha) (gradf x0)).
  set (x1 := match proxg with Some prox => prox alpha xg | None => xg end).
  set (w := GradientMethod.momentum (Fin 1%R) (GradientMethod.t_next (Fin 1%R))).
  exists (GradientMethod.mk gradf alpha true proxg x0
            (Alg.mk max_iter (Some 0%Z))
            (Some x0) (Some (Fin 1%R)) (Some x0) (Some PInf)).
  exists (GradientMethod.mk gradf alpha true proxg x1
            (Alg.mk max_iter (Some 1%Z))
            (Some (vadd x1 (smul w (vsub x1 x0))))
            (Some (GradientMethod.t_next (Fin 1%R))) (Some x0)
            (Some (util.norm (sdiv (vsub x1 x0) (pow_half alpha))))).
  exists (GradientMethod.mk gradf alpha false proxg x1
            (Alg.mk max_iter (Some 1%Z)) None None
            (match proxg with Some _ => Some x0 | None => None end)
            (Some (match proxg with
                   | Some _ => util.norm (sdiv (vsub x1 x0) (pow_half alpha))
                   | None => util.norm (gradf x0)
                   end))).
  split; [reflexivity|]. split; [reflexivity|]. split; [reflexivity|].
  split; [subst x1; destruct proxg; reflexivity|].
  split; [reflexivity|].
  split; [exact momentum_first|].
  split; [subst x1; destruct proxg; reflexivity|].
  split; [reflexivity|]. split; [reflexivity|].
  cbn [GradientMethod.x GradientMethod.z]. subst w. rewrite momentum_first.
  split; [reflexivity|]. f_equal. apply extrapolate_zero.
Qed.

(** The momentum point is not always [x] after the first update, as C10
    has it: when the gradient has an infinite entry ([gradf] returning
    [[-inf]] at [x_0 = [0]], [alpha = 1]) the step gives [x = [inf]], and
    [z = inf + 0 * (inf - 0)] is [nan]. *)
Lemma GradientMethod_momentum_point_counterexample :
  exists s0 s1,
    Alg.init (GradientMethod.__init__ (fun _ => [NInf]) [Fin 0%R] (Fin 1%R)
                                      None true 10)
    = Return tt s0 /\
    Alg.update s0 = Return tt s1 /\
    GradientMethod.x s1 = [PInf] /\
    GradientMethod.z s1 = Some [NaN] /\
    GradientMethod.z s1 <> Some (GradientMethod.x s1).
Proof.
  assert (Hx : util.axpy [Fin 0%R] (fneg (Fin 1%R)) [NInf] = [PInf]).
  { unfold util.axpy, vadd, smul. cbn [map map2 fneg fmul]. unfold inf_signed.
    match goal with
    | |- context [Rlt_dec 0 ?r] =>
        destruct (Rlt_dec 0 r) as [_|Hn]; [reflexivity | exfalso; apply Hn; lra]
    end. }
  assert (Hz : vadd [PInf]
                 (smul (GradientMethod.momentum (Fin 1%R)
                                                (GradientMethod.t_next (Fin 1%R)))
                       (vsub [PInf] [Fin 0%R])) = [NaN]).
  { rewrite momentum_first, extrapolate_zero. reflexivity. }
  exists (GradientMethod.mk (fun _ => [NInf]) (Fin 1%R) true None [Fin 0%R]
            (Alg.mk 10 (Some 0%Z))
            (Some [Fin 0%R]) (Some (Fin 1%R)) (Some [Fin 0%R]) (Some PInf)).
  exists (GradientMethod.mk (fun _ => [NInf]) (Fin 1%R) true None [PInf]
            (Alg.mk 10 (Some 1%Z))
            (Some [NaN])
            (Some (GradientMethod.t_next (Fin 1%R))) (Some [Fin 0%R])
            (Some (util.norm (sdiv (vsub [PInf] [Fin 0%R])
                                   (pow_half (Fin 1%R)))))).
  split; [reflexivity|]. split.
  - rewrite <- Hz, <- Hx. reflexivity.
  - split; [reflexivity|]. split; [reflexivity|].
    cbn [GradientMethod.z GradientMethod.x]. discriminate.
Qed.

(** ** Conjugate gradient *)

(** The void iteration: only the flag and the counter change. *)
Lemma ConjugateGradient_void_update (s : ConjugateGradient.obj)
      (pv : array) (i : Z) :
  ConjugateGradient.p s = Some pv ->
  Alg.iter (ConjugateGradient.alg s) = Some i ->
  feqb (util.dot pv (ConjugateGradient.A s pv)) (Fin 0%R) = true ->
  Alg.update s =
  Return tt
    (ConjugateGradient.set_alg
       (Alg.set_iter (Some (i + 1)%Z) (ConjugateGradient.alg s))
       (ConjugateGradient.set_zero_gradient (Some true) s)).
Proof.
  intros Hp Hi Hz.
  destruct s as [A P x b rzold alg r p zg res alpha].
  simpl in Hp, Hi, Hz. subst p.
  unfold Alg.update, Alg.self_update, ConjugateGradient.subclass,
    ConjugateGradient._update, bind, getattr, get, modify.
  simpl. rewrite Hz. unfold Alg.self_iter. simpl. rewrite Hi. reflexivity.
Qed.

(** Once the flag is set, [done()] returns true. *)
Lemma ConjugateGradient_done_flagged (s : ConjugateGradient.obj) (i : Z) :
  Alg.iter (ConjugateGradient.alg s) = Some i ->
  ConjugateGradient.zero_gradient s = Some true ->
  Alg.done s = Return true s.
Proof.
  intros Hi Hz.
  destruct s as [A P x b rzold [m it] r p zg res alpha].
  simpl in Hi, Hz. subst it zg.
  unfold Alg.done, Alg.self_done, ConjugateGradient.subclass,
    ConjugateGradient._done, bind, getattr, get, ret. simpl.
  now destruct (m <=? i)%Z.
Qed.

(** Further updates of a flagged object are void iterations again. *)
Lemma ConjugateGradient_void_run (k : nat) :
  forall (s : ConjugateGradient.obj) (pv : array) (i : Z),
    ConjugateGradient.p s = Some pv ->
    Alg.iter (ConjugateGradient.alg s) = Some i ->
    feqb (util.dot pv (ConjugateGradient.A s pv)) (Fin 0%R) = true ->
    ConjugateGradient.zero_gradient s = Some true ->
    exists sk,
      repeat_call k Alg.update s = Return tt sk /\
      Alg.done sk = Return true sk.
Proof.
  induction k as [|k IH]; intros s pv i Hp Hi Hz Hflag.
  - exists s. split; [reflexivity|].
    now apply ConjugateGradient_done_flagged with i.
  - pose proof (ConjugateGradient_void_update s pv i Hp Hi Hz) as Hu.
    match type of Hu with _ = Return tt ?s1 =>
      destruct (IH s1 pv (i + 1)%Z) as (sk & Hrun & Hdone);
        try (destruct s; assumption || reflexivity)
    end.
    exists sk. split; [|exact Hdone].
    cbn [repeat_call]. unfold bind at 1. now rewrite Hu.
Qed.

(** C3. On a conjugate-gradient [update()] in which [dot(p, A(p)) == 0],
    the solver sets [zero_gradient] and returns without changing [x],
    [r], [p], [rzold] or [residual]; [done()] then returns true, without
    an exception, also after any number of further [update()] calls. *)
Theorem ConjugateGradient_zero_curvature (s : ConjugateGradient.obj)
        (pv : array) (i : Z) :
  ConjugateGradient.p s = Some pv ->
  Alg.iter (ConjugateGradient.alg s) = Some i ->
  feqb (util.dot pv (ConjugateGradient.A s pv)) (Fin 0%R) = true ->
  exists s',
    Alg.update s = Return tt s' /\
    ConjugateGradient.zero_gradient s' = Some true /\
    ConjugateGradient.x s' = ConjugateGradient.x s /\
    ConjugateGradient.r s' = ConjugateGradient.r s /\
    ConjugateGradient.p s' = ConjugateGradient.p s /\
    ConjugateGradient.rzold s' = ConjugateGradient.rzold s /\
    ConjugateGradient.residual s' = ConjugateGradient.residual s /\
    forall k, exists sk,
      repeat_call k Alg.update s' = Return tt sk /\
      Alg.done sk = Return true sk.
Proof.
  intros Hp Hi Hz.
  pose proof (ConjugateGradient_void_update s pv i Hp Hi Hz) as Hu.
  match type of Hu with _ = Return tt ?s1 => exists s1 end.
  split; [exact Hu|]. do 6 (split; [reflexivity|]).
  intros k.
  apply ConjugateGradient_void_run with pv (i + 1)%Z;
    destruct s; assumption || reflexivity.
Qed.

Lemma ConjugateGradient_zero_curvature_witness :
  let s := final (Alg.init (ConjugateGradient.__init__
                              (fun v => smul (Fin 0%R) v)
                              [Fin 1%R] [Fin 0%R] None 5)) in
  exists s',
    Alg.update s = Return tt s' /\
    ConjugateGradient.zero_gradient s' = Some true /\
    ConjugateGradient.x s' = ConjugateGradient.x s /\
    Alg.done s' = Return true s'.
Proof.
  intros s.
  assert (Hz : feqb (util.dot [Fin (1 + - (0 * 0))%R]
                              (ConjugateGradient.A s [Fin (1 + - (0 * 0))%R]))
                    (Fin 0%R) = true).
  { apply feqb_eq. subst s. unfold util.dot, vmul, smul, fsum. simpl.
    f_equal. ring. }
  destruct (ConjugateGradient_zero_curvature s _ 0%Z eq_refl eq_refl Hz)
    as (s' & Hu & Hflag & Hx & _ & _ & _ & _ & Hrun).
  exists s'. split; [exact Hu|]. split; [exact Hflag|]. split; [exact Hx|].
  destruct (Hrun O) as (s0 & H0 & Hdone).
  injection H0 as <-. exact Hdone.
Defined.

(** ** Conjugate gradient: one step *)

Section ScalarSigns.

Local Open Scope R_scope.

Lemma inf_signed_opp (r : R) : inf_signed (- r) = fneg (inf_signed r).
Proof.
  unfold inf_signed.
  destruct (Rlt_dec 0 (- r)), (Rlt_dec (- r) 0), (Rlt_dec 0 r), (Rlt_dec r 0);
    try reflexivity; exfalso; lra.
Qed.

Lemma fneg_involutive (a : scalar) : fneg (fneg a) = a.
Proof. destruct a; simpl; try reflexivity. f_equal. ring. Qed.

Lemma fmul_fneg_l (a b : scalar) : fmul (fneg a) b = fneg (fmul a b).
Proof.
  destruct a as [x| | |], b as [y| | |]; simpl; try reflexivity.
  - f_equal. ring.
  - apply inf_signed_opp.
  - now rewrite inf_signed_opp, inf_signed_opp.
  - apply inf_signed_opp.
  - now rewrite inf_signed_opp, fneg_involutive.
Qed.

(** [axpy(y, -a, x)] is [y - a * x]. *)
Lemma axpy_neg (y x : array) (a : scalar) :
  util.axpy y (fneg a) x = vsub y (smul a x).
Proof.
  unfold util.axpy, vadd, vsub, smul.
  revert x. induction y as [|u y IH]; intros [|v x]; try reflexivity.
  cbn [map map2]. rewrite IH. f_equal.
  unfold fsub. now rewrite fmul_fneg_l.
Qed.

End ScalarSigns.

(** C6. A conjugate-gradient [update()] with [dot(p, A(p)) != 0] sets
    [alpha = rzold / pAp] and [x <- x + alpha * p]. When the iteration is
    not the last permitted one ([iter < max_iter - 1]) it also sets
    [r <- r - alpha * Ap], takes [z = P(r)] (or [z = r] without a
    preconditioner), [rznew = dot(r, z)], [beta = rznew / rzold],
    [p <- z + beta * p] and [rzold <- rznew]; otherwise [r], [p] and
    [rzold] are left as they are. In both cases [residual] becomes the
    square root of the final [rzold]. The counter [i] counts from 0. *)
Theorem ConjugateGradient_step (s : ConjugateGradient.obj) (i : Z)
        (pv rv : array) (rz : scalar) :
  (0 <= i)%Z ->
  Alg.iter (ConjugateGradient.alg s) = Some i ->
  ConjugateGradient.p s = Some pv ->
  ConjugateGradient.r s = Some rv ->
  ConjugateGradient.rzold s = Some rz ->
  let Ap := ConjugateGradient.A s pv in
  let pAp := util.dot pv Ap in
  let a := fdiv rz pAp in
  feqb pAp (Fin 0%R) = false ->
  exists s',
    Alg.update s = Return tt s' /\
    ConjugateGradient.alpha s' = Some a /\
    ConjugateGradient.x s' = vadd (ConjugateGradient.x s) (smul a pv) /\
    (if (i <? Alg.max_iter (ConjugateGradient.alg s) - 1)%Z then
       let r' := vsub rv (smul a Ap) in
       let zv := match ConjugateGradient.P s with
                 | Some pre => pre r'
                 | None => r'
                 end in
       let rznew := util.dot r' zv in
       let beta := fdiv rznew rz in
       ConjugateGradient.r s' = Some r' /\
       ConjugateGradient.p s' = Some (vadd zv (smul beta pv)) /\
       ConjugateGradient.rzold s' = Some rznew /\
       ConjugateGradient.residual s' = Some (pow_half rznew)
     else
       ConjugateGradient.r s' = Some rv /\
       ConjugateGradient.p s' = Some pv /\
       ConjugateGradient.rzold s' = Some rz /\
       ConjugateGradient.residual s' = Some (pow_half rz)) /\
    ConjugateGradient.zero_gradient s' = ConjugateGradient.zero_gradient s /\
    Alg.iter (ConjugateGradient.alg s') = Some (i + 1)%Z.
Proof.
  intros _ Hi Hp Hr Hrz Ap pAp a Hne.
  destruct s as [A P x b rzold [m it] r p zg res alpha].
  simpl in Hi, Hp, Hr, Hrz, Ap. subst it p r rzold. subst a pAp Ap.
  unfold Alg.update, Alg.self_update, Alg.self_iter,
    ConjugateGradient.subclass, ConjugateGradient._update,
    ConjugateGradient.precondition, ConjugateGradient.write_r,
    bind, getattr, get, modify.
  simpl. rewrite Hne. simpl.
  destruct (i <? m - 1)%Z; simpl.
  - rewrite <- !axpy_neg.
    destruct P as [pre|]; simpl; eexists; (split; [reflexivity|]);
      repeat split.
  - eexists; (split; [reflexivity|]); repeat split.
Qed.

Lemma ConjugateGradient_step_witness :
  let s := final (Alg.init (ConjugateGradient.__init__
                              (fun v => v) [Fin 1%R] [Fin 0%R] None 5)) in
  exists s',
    Alg.update s = Return tt s' /\
    ConjugateGradient.alpha s' =
    Some (fdiv (util.dot [Fin (1 + - 0)%R] [Fin (1 + - 0)%R])
               (util.dot [Fin (1 + - 0)%R] [Fin (1 + - 0)%R])).
Proof.
  intros s.
  assert (Hne : feqb (util.dot [Fin (1 + - 0)%R]
                               (ConjugateGradient.A s [Fin (1 + - 0)%R]))
                     (Fin 0%R) = false).
  { subst s. unfold util.dot, vmul, fsum. simpl.
    destruct (Req_dec_T ((1 + - 0) * (1 + - 0) + 0) 0) as [H|_];
      [exfalso; lra | reflexivity]. }
  destruct (ConjugateGradient_step s 0%Z _ _ _ (Z.le_refl 0)
                                   eq_refl eq_refl eq_refl eq_refl Hne)
    as (s' & Hu & Ha & _).
  exists s'. split; [exact Hu | exact Ha].
Defined.

(** ** Newton's method *)

(** C1. [update()] of Newton's method computes [H = hessf(x)],
    [s = proxHg(H, H(x) - gradf(x))], [d = s - x] and
    [lamda = sqrt(dot(d, H(d)))], and then raises [NameError] on the name
    [alpha]: the step [x <- x + alpha * d] is not applied, [x] and the
    iteration counter keep their values. *)
Theorem NewtonsMethod_update_raises (s : NewtonsMethod.obj) :
  let H := NewtonsMethod.hessf s (NewtonsMethod.x s) in
  let sv := NewtonsMethod.proxHg s H
              (vsub (H (NewtonsMethod.x s))
                    (NewtonsMethod.gradf s (NewtonsMethod.x s))) in
  let d := vsub sv (NewtonsMethod.x s) in
  let s' := NewtonsMethod.set_lamda (pow_half (util.dot d (H d))) s in
  Alg.update s = Raise (NameError "alpha") s' /\
  NewtonsMethod.x s' = NewtonsMethod.x s /\
  Alg.iter (NewtonsMethod.alg s') = Alg.iter (NewtonsMethod.alg s).
Proof.
  intros H sv d s'. split; [|split; reflexivity].
  apply update_raises. reflexivity.
Qed.

(** On Newton's method [init()] sets the counter to 0, and the [update()]
    that follows raises [NameError] and leaves the counter at 0: no
    [update()] of Newton's method ever counts an iteration. *)
Lemma NewtonsMethod_update_does_not_count
        (gradf : array -> array) (hessf : array -> array -> array)
        (proxHg : (array -> array) -> array -> array) (x : array)
        (max_iter : Z) (sigma : scalar) :
  exists s0 s1,
    Alg.init (NewtonsMethod.__init__ gradf hessf proxHg x max_iter sigma)
    = Return tt s0 /\
    Alg.iter (NewtonsMethod.alg s0) = Some 0%Z /\
    Alg.update s0 = Raise (NameError "alpha") s1 /\
    Alg.iter (NewtonsMethod.alg s1) = Some 0%Z.
Proof.
  do 2 eexists. split; [reflexivity|]. split; [reflexivity|].
  split; [apply update_raises; reflexivity | reflexivity].
Qed.

(** ** Primal-dual hybrid gradient *)

Section PlainPDHG.

Local Open Scope R_scope.


Lemma feqb_zero_zero : feqb (Fin 0) (Fin 0) = true.
Proof. now apply feqb_eq. Qed.


End PlainPDHG.



(** ** The life cycle, solver by solver *)

(** [init()] returns with the counter at 0. *)
Lemma PowerMethod_init_counter (o : PowerMethod.obj) :
  exists s, Alg.init o = Return tt s /\
            Alg.iter (PowerMethod.alg s) = Some 0%Z.
Proof. eexists. split; reflexivity. Qed.

Lemma ProximalPointMethod_init_counter (o : ProximalPointMethod.obj) :
  exists s, Alg.init o = Return tt s /\
            Alg.iter (ProximalPointMethod.alg s) = Some 0%Z.
Proof. eexists. split; reflexivity. Qed.

Lemma ConjugateGradient_init_counter (o : ConjugateGradient.obj) :
  exists s, Alg.init o = Return tt s /\
            Alg.iter (ConjugateGradient.alg s) = Some 0%Z /\
            ConjugateGradient_initialised s = true.
Proof.
  destruct o as [A P x b rzold [m it] r p zg res alpha].
  unfold Alg.init, Alg.self_init, ConjugateGradient.subclass,
    ConjugateGradient._init, ConjugateGradient.precondition,
    bind, getattr, get, modify.
  destruct P as [pre|]; simpl; destruct (1 <? m)%Z;
    eexists; (split; [reflexivity|]); split; reflexivity.
Qed.

Lemma NewtonsMethod_init_counter (o : NewtonsMethod.obj) :
  exists s, Alg.init o = Return tt s /\
            Alg.iter (NewtonsMethod.alg s) = Some 0%Z.
Proof. eexists. split; reflexivity. Qed.

Lemma PDHG_init_counter (o : PrimalDualHybridGradient.obj) :
  exists s, Alg.init o = Return tt s /\
            Alg.iter (PrimalDualHybridGradient.alg s) = Some 0%Z /\
            PDHG_initialised s = true.
Proof. eexists. split; [reflexivity|]. split; reflexivity. Qed.

Lemma AltMin_init_counter (Env : Type) (o : AltMin.obj Env) :
  exists s, Alg.init o = Return tt s /\
            Alg.iter (AltMin.alg s) = Some 0%Z.
Proof. eexists. split; reflexivity. Qed.

(** [update()] returns and counts one iteration: the solvers other than
    Newton's method. (The gradient method is
    [GradientMethod_update_initialised].) *)
Lemma PowerMethod_update_counts (s : PowerMethod.obj) (i : Z) :
  Alg.iter (PowerMethod.alg s) = Some i ->
  exists s', Alg.update s = Return tt s' /\
             Alg.iter (PowerMethod.alg s') = Some (i + 1)%Z.
Proof.
  intros Hi. eexists. split.
  - eapply (update_returns s); [reflexivity | exact Hi].
  - reflexivity.
Qed.

Lemma ProximalPointMethod_update_counts (s : ProximalPointMethod.obj) (i : Z) :
  Alg.iter (ProximalPointMethod.alg s) = Some i ->
  exists s', Alg.update s = Return tt s' /\
             Alg.iter (ProximalPointMethod.alg s') = Some (i + 1)%Z.
Proof.
  intros Hi. eexists. split.
  - eapply (update_returns s); [reflexivity | exact Hi].
  - reflexivity.
Qed.

Lemma AltMin_update_counts (Env : Type) (s : AltMin.obj Env) (i : Z) :
  Alg.iter (AltMin.alg s) = Some i ->
  exists s', Alg.update s = Return tt s' /\
             Alg.iter (AltMin.alg s') = Some (i + 1)%Z.
Proof.
  intros Hi. eexists. split.
  - eapply (update_returns s); [reflexivity | exact Hi].
  - reflexivity.
Qed.

Lemma ConjugateGradient_update_counts (s : ConjugateGradient.obj) :
  ConjugateGradient_initialised s = true ->
  exists s' i,
    Alg.update s = Return tt s' /\
    Alg.iter (ConjugateGradient.alg s) = Some i /\
    Alg.iter (ConjugateGradient.alg s') = Some (i + 1)%Z /\
    ConjugateGradient_initialised s' = true.
Proof.
  destruct s as [A P x b rzold [m it] r p zg res alpha].
  unfold ConjugateGradient_initialised. simpl.
  destruct it as [i|]; [|discriminate].
  destruct rzold as [rz|]; [|discriminate].
  destruct r as [rv|]; [|discriminate].
  destruct p as [pv|]; [|discriminate].
  destruct zg as [zg|]; [|discriminate].
  destruct res as [res|]; [|discriminate]. intros _.
  unfold Alg.update, Alg.self_update, Alg.self_iter,
    ConjugateGradient.subclass, ConjugateGradient._update,
    ConjugateGradient.precondition, ConjugateGradient.write_r,
    bind, getattr, get, modify.
  simpl. destruct (feqb (util.dot pv (A pv)) (Fin 0%R)); simpl.
  - eexists. exists i. split; [reflexivity|]. repeat split.
  - destruct (i <? m - 1)%Z; simpl.
    + destruct P as [pre|]; simpl; eexists; exists i;
        (split; [reflexivity|]); repeat split.
    + eexists. exists i. split; [reflexivity|]. repeat split.
Qed.

(** The primal-dual method reads the minimum of a step size when it
    adapts: it needs a float or a non-empty array. *)
Lemma step_amin_abs_returns {S : Type} (t : step) (s : S) :
  step_nonempty t = true ->
  exists m, step_amin_abs t s = Return m s.
Proof.
  destruct t as [a|[|a w]]; simpl; try discriminate; intros _.
  - now exists (fabs a).
  - eexists. reflexivity.
Qed.

Lemma step_scale_nonempty (t : step) (theta : scalar) :
  step_nonempty (step_scale t theta) = step_nonempty t.
Proof. now destruct t as [a|[|a w]]. Qed.

Lemma step_unscale_nonempty (t : step) (theta : scalar) :
  step_nonempty (step_unscale t theta) = step_nonempty t.
Proof. now destruct t as [a|[|a w]]. Qed.

Lemma PDHG_adapt_returns (s : PrimalDualHybridGradient.obj) :
  step_nonempty (PrimalDualHybridGradient.tau s) = true ->
  step_nonempty (PrimalDualHybridGradient.sigma s) = true ->
  exists theta tau' sigma',
    PrimalDualHybridGradient.adapt s =
    Return theta (PrimalDualHybridGradient.set_sigma sigma'
                    (PrimalDualHybridGradient.set_tau tau' s)) /\
    step_nonempty tau' = true /\ step_nonempty sigma' = true.
Proof.
  intros Ht Hs.
  destruct s as [proxfc proxg A AH u x tau sigma gp gd alg xe uo xo].
  simpl in Ht, Hs.
  unfold PrimalDualHybridGradient.adapt, step_amin_abs, amin, raise,
    bind, get, modify, ret.
  simpl.
  destruct (fgtb gp (Fin 0%R) && feqb gd (Fin 0%R)).
  - destruct tau as [a|[|a w]]; try discriminate;
      do 3 eexists; (split; [reflexivity|]);
      now rewrite step_unscale_nonempty.
  - destruct (feqb gp (Fin 0%R) && fgtb gd (Fin 0%R)).
    + destruct sigma as [a|[|a w]]; try discriminate;
        do 3 eexists; (split; [reflexivity|]);
        now rewrite step_unscale_nonempty.
    + exists (Fin 1%R), tau, sigma. now repeat split.
Qed.

Lemma PDHG_update_counts (s : PrimalDualHybridGradient.obj) :
  PDHG_initialised s = true ->
  step_nonempty (PrimalDualHybridGradient.tau s) = true ->
  step_nonempty (PrimalDualHybridGradient.sigma s) = true ->
  exists s' i,
    Alg.update s = Return tt s' /\
    Alg.iter (PrimalDualHybridGradient.alg s) = Some i /\
    Alg.iter (PrimalDualHybridGradient.alg s') = Some (i + 1)%Z /\
    PDHG_initialised s' = true /\
    step_nonempty (PrimalDualHybridGradient.tau s') = true /\
    step_nonempty (PrimalDualHybridGradient.sigma s') = true.
Proof.
  intros Hs Ht Hg.
  destruct s as [proxfc proxg A AH u x tau sigma gp gd [m it] xe uo xo].
  unfold PDHG_initialised in Hs. simpl in Hs, Ht, Hg.
  destruct it as [i|]; [|discriminate].
  destruct xe as [xe|]; [|discriminate].
  destruct uo as [uo|]; [|discriminate].
  destruct xo as [xo|]; [|discriminate]. clear Hs.
  set (u1 := proxfc sigma (vadd u (step_apply sigma (A xe)))).
  set (x1 := proxg tau (vsub x (step_apply tau (AH u1)))).
  destruct (PDHG_adapt_returns
              (PrimalDualHybridGradient.mk proxfc proxg A AH u1 x1 tau sigma
                 gp gd (Alg.mk m (Some i)) (Some xe) (Some u) (Some x))
              Ht Hg)
    as (theta & tau' & sigma' & Had & Ht' & Hg').
  exists (PrimalDualHybridGradient.mk proxfc proxg A AH u1 x1 tau' sigma'
            gp gd (Alg.mk m (Some (i + 1)%Z))
            (Some (vadd x1 (smul theta (vsub x1 x)))) (Some u) (Some x)).
  exists i. split; [|now repeat split].
  unfold Alg.update, Alg.self_update, Alg.self_iter,
    PrimalDualHybridGradient.subclass, PrimalDualHybridGradient._update.
  subst u1 x1.
  lazy -[PrimalDualHybridGradient.adapt vadd vsub smul step_apply Z.add array].
  rewrite Had. reflexivity.
Qed.

(** [done()] returns true once the counter has reached [max_iter],
    whatever the residual state of the solver. *)
Lemma PowerMethod_done_reached (s : PowerMethod.obj) (i : Z) :
  Alg.iter (PowerMethod.alg s) = Some i ->
  (Alg.max_iter (PowerMethod.alg s) <= i)%Z ->
  Alg.done s = Return true s.
Proof.
  intros Hi Hm. unfold Alg.done. simpl. rewrite (default_done _ s i Hi).
  now apply Z.leb_le in Hm as ->.
Qed.

Lemma ProximalPointMethod_done_reached (s : ProximalPointMethod.obj) (i : Z) :
  Alg.iter (ProximalPointMethod.alg s) = Some i ->
  (Alg.max_iter (ProximalPointMethod.alg s) <= i)%Z ->
  Alg.done s = Return true s.
Proof.
  intros Hi Hm. unfold Alg.done. simpl. rewrite (default_done _ s i Hi).
  now apply Z.leb_le in Hm as ->.
Qed.

Lemma NewtonsMethod_done_reached (s : NewtonsMethod.obj) (i : Z) :
  Alg.iter (NewtonsMethod.alg s) = Some i ->
  (Alg.max_iter (NewtonsMethod.alg s) <= i)%Z ->
  Alg.done s = Return true s.
Proof.
  intros Hi Hm. unfold Alg.done. simpl. rewrite (default_done _ s i Hi).
  now apply Z.leb_le in Hm as ->.
Qed.

Lemma PDHG_done_reached (s : PrimalDualHybridGradient.obj) (i : Z) :
  Alg.iter (PrimalDualHybridGradient.alg s) = Some i ->
  (Alg.max_iter (PrimalDualHybridGradient.alg s) <= i)%Z ->
  Alg.done s = Return true s.
Proof.
  intros Hi Hm. unfold Alg.done. simpl. rewrite (default_done _ s i Hi).
  now apply Z.leb_le in Hm as ->.
Qed.

Lemma AltMin_done_reached (Env : Type) (s : AltMin.obj Env) (i : Z) :
  Alg.iter (AltMin.alg s) = Some i ->
  (Alg.max_iter (AltMin.alg s) <= i)%Z ->
  Alg.done s = Return true s.
Proof.
  intros Hi Hm. unfold Alg.done. simpl. rewrite (default_done _ s i Hi).
  now apply Z.leb_le in Hm as ->.
Qed.

Lemma GradientMethod_done_reached (s : GradientMethod.obj) (i : Z) :
  Alg.iter (GradientMethod.alg s) = Some i ->
  (Alg.max_iter (GradientMethod.alg s) <= i)%Z ->
  Alg.done s = Return true s.
Proof.
  intros Hi Hm.
  unfold Alg.done, Alg.self_done, GradientMethod.subclass,
    GradientMethod._done, bind, getattr, get, ret.
  rewrite Hi. now apply Z.leb_le in Hm as ->.
Qed.

Lemma ConjugateGradient_done_reached (s : ConjugateGradient.obj) (i : Z) :
  Alg.iter (ConjugateGradient.alg s) = Some i ->
  (Alg.max_iter (ConjugateGradient.alg s) <= i)%Z ->
  Alg.done s = Return true s.
Proof.
  intros Hi Hm.
  unfold Alg.done, Alg.self_done, ConjugateGradient.subclass,
    ConjugateGradient._done, bind, getattr, get, ret.
  rewrite Hi. now apply Z.leb_le in Hm as ->.
Qed.

(** ** The life cycle of every solver *)

Section CounterFacts.

Context {S : Type} `{Alg.Subclass S}.

(** What [update()] does with the outcome of the hook. *)
Lemma update_outcome (s : S) :
  Alg.update s =
  match Alg.self_update s with
  | Return _ s1 =>
      match Alg.self_iter s1 with
      | Some i => Return tt (Alg.self_set_iter (Some (i + 1)%Z) s1)
      | None => Raise (AttributeError "iter") s1
      end
  | Raise e s1 => Raise e s1
  end.
Proof.
  unfold Alg.update, bind, getattr, modify.
  destruct (Alg.self_update s) as [u s1|e s1]; [|reflexivity].
  now destruct (Alg.self_iter s1).
Qed.

(** The attributes of [Alg] are a field of the object, and the hook does
    not write them. *)
Hypothesis alg_set_alg :
  forall (a : Alg.obj) (s : S), Alg.self_alg (Alg.self_set_alg a s) = a.
Hypothesis hook_keeps_alg :
  forall s : S, Alg.self_alg (final (Alg.self_update s)) = Alg.self_alg s.

Lemma update_return_counts (s s' : S) :
  Alg.update s = Return tt s' ->
  exists i, Alg.self_iter s = Some i /\ Alg.self_iter s' = Some (i + 1)%Z.
Proof.
  rewrite update_outcome. pose proof (hook_keeps_alg s) as Hk.
  destruct (Alg.self_update s) as [u s1|e s1]; [|discriminate].
  simpl in Hk.
  assert (Hi : Alg.self_iter s = Alg.self_iter s1)
    by (unfold Alg.self_iter; now rewrite Hk).
  rewrite Hi.
  destruct (Alg.self_iter s1) as [i|]; [|discriminate].
  intros Heq. injection Heq as <-. exists i. split; [reflexivity|].
  unfold Alg.self_iter, Alg.self_set_iter. now rewrite alg_set_alg.
Qed.

Lemma update_raise_keeps (s s' : S) (e : exn) :
  Alg.update s = Raise e s' ->
  Alg.self_iter s' = Alg.self_iter s.
Proof.
  rewrite update_outcome. pose proof (hook_keeps_alg s) as Hk.
  destruct (Alg.self_update s) as [u s1|e1 s1]; simpl in Hk.
  - destruct (Alg.self_iter s1) as [i|]; [discriminate|].
    intros Heq. injection Heq as _ <-. unfold Alg.self_iter. now rewrite Hk.
  - intros Heq. injection Heq as _ <-. unfold Alg.self_iter. now rewrite Hk.
Qed.

End CounterFacts.

(** No hook writes the counter, whether it returns or raises. *)
Lemma PowerMethod_hook_keeps_alg (s : PowerMethod.obj) :
  PowerMethod.alg (final (PowerMethod._update s)) = PowerMethod.alg s.
Proof. reflexivity. Qed.

Lemma ProximalPointMethod_hook_keeps_alg (s : ProximalPointMethod.obj) :
  ProximalPointMethod.alg (final (ProximalPointMethod._update s))
  = ProximalPointMethod.alg s.
Proof. reflexivity. Qed.

Lemma GradientMethod_hook_keeps_alg (s : GradientMethod.obj) :
  GradientMethod.alg (final (GradientMethod._update s)) = GradientMethod.alg s.
Proof.
  destruct s as [gradf alpha acc proxg x alg z t x_old res].
  destruct acc, proxg as [prox|], z as [zv|], t as [tv|], x_old as [xo|];
    reflexivity.
Qed.

Lemma ConjugateGradient_hook_keeps_alg (s : ConjugateGradient.obj) :
  ConjugateGradient.alg (final (ConjugateGradient._update s))
  = ConjugateGradient.alg s.
Proof.
  destruct s as [A P x b rzold [m it] r p zg res alpha].
  destruct p as [pv|]; [|reflexivity].
  unfold ConjugateGradient._update, ConjugateGradient.precondition,
    ConjugateGradient.write_r, bind, getattr, get, modify.
  simpl. destruct (feqb (util.dot pv (A pv)) (Fin 0%R)); [reflexivity|].
  destruct rzold as [rz|]; [|reflexivity]. simpl.
  destruct it as [i|]; [|reflexivity]. simpl.
  destruct (i <? m - 1)%Z; [|reflexivity].
  destruct r as [rv|]; [|reflexivity]. simpl.
  destruct P as [pre|]; reflexivity.
Qed.

Lemma NewtonsMethod_hook_keeps_alg (s : NewtonsMethod.obj) :
  NewtonsMethod.alg (final (NewtonsMethod._update s)) = NewtonsMethod.alg s.
Proof. reflexivity. Qed.

Lemma PDHG_adapt_keeps_alg (s : PrimalDualHybridGradient.obj) :
  PrimalDualHybridGradient.alg (final (PrimalDualHybridGradient.adapt s))
  = PrimalDualHybridGradient.alg s /\
  PrimalDualHybridGradient.x_ext (final (PrimalDualHybridGradient.adapt s))
  = PrimalDualHybridGradient.x_ext s /\
  PrimalDualHybridGradient.x_old (final (PrimalDualHybridGradient.adapt s))
  = PrimalDualHybridGradient.x_old s.
Proof.
  destruct s as [proxfc proxg A AH u x tau sigma gp gd alg xe uo xo].
  unfold PrimalDualHybridGradient.adapt, step_amin_abs, amin, raise,
    bind, get, modify, ret.
  simpl.
  destruct (fgtb gp (Fin 0%R) && feqb gd (Fin 0%R)).
  - destruct tau as [a|[|a w]]; repeat split.
  - destruct (feqb gp (Fin 0%R) && fgtb gd (Fin 0%R)).
    + destruct sigma as [a|[|a w]]; repeat split.
    + repeat split.
Qed.

Lemma PDHG_hook_keeps_alg (s : PrimalDualHybridGradient.obj) :
  PrimalDualHybridGradient.alg (final (PrimalDualHybridGradient._update s))
  = PrimalDualHybridGradient.alg s.
Proof.
  destruct s as [proxfc proxg A AH u x tau sigma gp gd alg xe uo xo].
  destruct uo as [uo|]; [|reflexivity].
  destruct xo as [xo|]; [|reflexivity].
  destruct xe as [xe|]; [|reflexivity].
  unfold PrimalDualHybridGradient._update.
  lazy -[PrimalDualHybridGradient.adapt vadd vsub smul step_apply array final].
  match goal with
  | |- context [PrimalDualHybridGradient.adapt ?s1] =>
      pose proof (PDHG_adapt_keeps_alg s1) as (Ha & He & Ho);
      destruct (PrimalDualHybridGradient.adapt s1) as [theta s2|e s2]
  end; destruct s2; simpl in Ha, He, Ho |- *; subst; reflexivity.
Qed.

Lemma AltMin_hook_keeps_alg (Env : Type) (s : AltMin.obj Env) :
  AltMin.alg (final (AltMin._update s)) = AltMin.alg s.
Proof. reflexivity. Qed.

(** The claim C2 as it is written fails where the hook raises: the
    primal-dual method with [gamma_primal > 0] and an empty array as
    [tau] raises [ValueError] on the minimum of [|tau|], and the counter
    stays at 0 across the [update()] call. *)
Lemma update_that_raises_counterexample :
  let v0 := final (Solver.init
                     (Solver.PrimalDual unit
                        (PrimalDualHybridGradient.__init__
                           (fun _ w => w) (fun _ w => w)
                           (fun w => w) (fun w => w)
                           [] [] (Arr []) (Arr []) (Fin 1%R) (Fin 0%R) 100))) in
  exists e v1,
    Solver.update v0 = Raise e v1 /\
    Solver.iter v0 = Some 0%Z /\
    Solver.iter v1 = Some 0%Z /\
    Solver.iter v1 <> Some (0 + 1)%Z.
Proof.
  assert (Hc : fgtb (Fin 1%R) (Fin 0%R) && feqb (Fin 0%R) (Fin 0%R) = true).
  { rewrite feqb_zero_zero. simpl.
    destruct (Rlt_dec 0 1) as [_|Hn]; [reflexivity | exfalso; apply Hn; lra]. }
  intros v0. subst v0.
  unfold Solver.update, Solver.init, Solver.iter, Solver.alg, lift.
  change (final (Alg.init
                   (PrimalDualHybridGradient.__init__
                      (fun _ w => w) (fun _ w => w) (fun w => w) (fun w => w)
                      [] [] (Arr []) (Arr []) (Fin 1%R) (Fin 0%R) 100)))
    with (PrimalDualHybridGradient.mk
            (fun _ w => w) (fun _ w => w) (fun w => w) (fun w => w)
            [] [] (Arr []) (Arr []) (Fin 1%R) (Fin 0%R)
            (Alg.mk 100 (Some 0%Z)) (Some []) (Some []) (Some [])).
  cbn [final].
  unfold Alg.update, Alg.self_update, PrimalDualHybridGradient.subclass,
    PrimalDualHybridGradient._update.
  lazy -[PrimalDualHybridGradient.adapt vadd vsub smul step_apply array IZR].
  match goal with
  | |- context [PrimalDualHybridGradient.adapt ?s1] =>
      assert (Had : PrimalDualHybridGradient.adapt s1
                    = Raise (ValueError
                               "zero-size array to reduction operation minimum")
                            s1)
  end.
  { unfold PrimalDualHybridGradient.adapt, bind, get.
    cbn [PrimalDualHybridGradient.gamma_primal
         PrimalDualHybridGradient.gamma_dual].
    rewrite Hc. reflexivity. }
  rewrite Had. do 2 eexists. split; [reflexivity|].
  repeat split. discriminate.
Qed.

(** C2, amended. For every solver: [init()] returns with the iteration
    counter at 0; every [update()] call that returns has increased the
    counter by exactly 1, and one that raises has left it as it was;
    [done()] returns true whenever the counter has reached [max_iter],
    whatever the residual state of the solver. *)
Theorem Solver_life_cycle (Env : Type) (v : Solver.obj Env) :
  (exists v0, Solver.init v = Return tt v0 /\ Solver.iter v0 = Some 0%Z) /\
  (forall v', Solver.update v = Return tt v' ->
              exists i, Solver.iter v = Some i /\
                        Solver.iter v' = Some (i + 1)%Z) /\
  (forall e v', Solver.update v = Raise e v' ->
                Solver.iter v' = Solver.iter v) /\
  (forall i, Solver.iter v = Some i ->
             (Solver.max_iter v <= i)%Z ->
             Solver.done v = Return true v).
Proof.
  destruct v as [s|s|s|s|s|s|s];
    unfold Solver.init, Solver.update, Solver.done, Solver.iter,
      Solver.max_iter, Solver.alg, lift.
  - split; [|split; [|split]].
    + destruct (PowerMethod_init_counter s) as (s0 & -> & Hi). eauto.
    + intros v'. destruct (Alg.update s) as [[] s'|e s'] eqn:E; [|discriminate].
      intros Hv. injection Hv as <-.
      exact (@update_return_counts _ PowerMethod.subclass (fun _ _ => eq_refl)
                                   PowerMethod_hook_keeps_alg s s' E).
    + intros e v'. destruct (Alg.update s) as [[] s'|e' s'] eqn:E; [discriminate|].
      intros Hv. injection Hv as _ <-.
      exact (@update_raise_keeps _ PowerMethod.subclass
                                 PowerMethod_hook_keeps_alg s s' e' E).
    + intros i Hi Hm. now rewrite (PowerMethod_done_reached s i Hi Hm).
  - split; [|split; [|split]].
    + destruct (ProximalPointMethod_init_counter s) as (s0 & -> & Hi). eauto.
    + intros v'. destruct (Alg.update s) as [[] s'|e s'] eqn:E; [|discriminate].
      intros Hv. injection Hv as <-.
      exact (@update_return_counts _ ProximalPointMethod.subclass (fun _ _ => eq_refl)
                                   ProximalPointMethod_hook_keeps_alg s s' E).
    + intros e v'. destruct (Alg.update s) as [[] s'|e' s'] eqn:E; [discriminate|].
      intros Hv. injection Hv as _ <-.
      exact (@update_raise_keeps _ ProximalPointMethod.subclass
                                 ProximalPointMethod_hook_keeps_alg s s' e' E).
    + intros i Hi Hm. now rewrite (ProximalPointMethod_done_reached s i Hi Hm).
  - split; [|split; [|split]].
    + destruct (GradientMethod_init_initialised s) as (s0 & -> & _ & Hi). eauto.
    + intros v'. destruct (Alg.update s) as [[] s'|e s'] eqn:E; [|discriminate].
      intros Hv. injection Hv as <-.
      exact (@update_return_counts _ GradientMethod.subclass (fun _ _ => eq_refl)
                                   GradientMethod_hook_keeps_alg s s' E).
    + intros e v'. destruct (Alg.update s) as [[] s'|e' s'] eqn:E; [discriminate|].
      intros Hv. injection Hv as _ <-.
      exact (@update_raise_keeps _ GradientMethod.subclass
                                 GradientMethod_hook_keeps_alg s s' e' E).
    + intros i Hi Hm. now rewrite (GradientMethod_done_reached s i Hi Hm).
  - split; [|split; [|split]].
    + destruct (ConjugateGradient_init_counter s) as (s0 & -> & Hi & _). eauto.
    + intros v'. destruct (Alg.update s) as [[] s'|e s'] eqn:E; [|discriminate].
      intros Hv. injection Hv as <-.
      exact (@update_return_counts _ ConjugateGradient.subclass (fun _ _ => eq_refl)
                                   ConjugateGradient_hook_keeps_alg s s' E).
    + intros e v'. destruct (Alg.update s) as [[] s'|e' s'] eqn:E; [discriminate|].
      intros Hv. injection Hv as _ <-.
      exact (@update_raise_keeps _ ConjugateGradient.subclass
                                 ConjugateGradient_hook_keeps_alg s s' e' E).
    + intros i Hi Hm. now rewrite (ConjugateGradient_done_reached s i Hi Hm).
  - split; [|split; [|split]].
    + destruct (NewtonsMethod_init_counter s) as (s0 & -> & Hi). eauto.
    + intros v'. destruct (Alg.update s) as [[] s'|e s'] eqn:E; [|discriminate].
      intros Hv. injection Hv as <-.
      exact (@update_return_counts _ NewtonsMethod.subclass (fun _ _ => eq_refl)
                                   NewtonsMethod_hook_keeps_alg s s' E).
    + intros e v'. destruct (Alg.update s) as [[] s'|e' s'] eqn:E; [discriminate|].
      intros Hv. injection Hv as _ <-.
      exact (@update_raise_keeps _ NewtonsMethod.subclass
                                 NewtonsMethod_hook_keeps_alg s s' e' E).
    + intros i Hi Hm. now rewrite (NewtonsMethod_done_reached s i Hi Hm).
  - split; [|split; [|split]].
    + destruct (PDHG_init_counter s) as (s0 & -> & Hi & _). eauto.
    + intros v'. destruct (Alg.update s) as [[] s'|e s'] eqn:E; [|discriminate].
      intros Hv. injection Hv as <-.
      exact (@update_return_counts _ PrimalDualHybridGradient.subclass (fun _ _ => eq_refl)
                                   PDHG_hook_keeps_alg s s' E).
    + intros e v'. destruct (Alg.update s) as [[] s'|e' s'] eqn:E; [discriminate|].
      intros Hv. injection Hv as _ <-.
      exact (@update_raise_keeps _ PrimalDualHybridGradient.subclass
                                 PDHG_hook_keeps_alg s s' e' E).
    + intros i Hi Hm. now rewrite (PDHG_done_reached s i Hi Hm).
  - split; [|split; [|split]].
    + destruct (AltMin_init_counter Env s) as (s0 & -> & Hi). eauto.
    + intros v'. destruct (Alg.update s) as [[] s'|e s'] eqn:E; [|discriminate].
      intros Hv. injection Hv as <-.
      exact (@update_return_counts _ (AltMin.subclass Env)
                                   (fun _ _ => eq_refl)
                                   (AltMin_hook_keeps_alg Env) s s' E).
    + intros e v'. destruct (Alg.update s) as [[] s'|e' s'] eqn:E; [discriminate|].
      intros Hv. injection Hv as _ <-.
      exact (@update_raise_keeps _ (AltMin.subclass Env)
                                 (AltMin_hook_keeps_alg Env) s s' e' E).
    + intros i Hi Hm. now rewrite (AltMin_done_reached Env s i Hi Hm).
Qed.

Lemma Solver_life_cycle_witness :
  let v := final (Solver.init
                    (Solver.Power unit
                       (PowerMethod.__init__ (fun w => w) [Fin 1%R] 30))) in
  exists v',
    Solver.update v = Return tt v' /\
    Solver.iter v = Some 0%Z /\ Solver.iter v' = Some (0 + 1)%Z.
Proof.
  intros v.
  destruct (Solver_life_cycle unit v) as (_ & Hup & _).
  destruct (Solver.update v) as [[] v'|e v'] eqn:E; [|discriminate E].
  exists v'. split; [reflexivity|].
  destruct (Hup v' eq_refl) as (i & Hi & Hi').
  assert (Hi0 : i = 0%Z) by (injection Hi as <-; reflexivity).
  subst i. split; [reflexivity | exact Hi'].
Defined.

(** * Further properties of the life cycle *)

(** ** Calls out of order *)

(** X1. [done()] only reads: whether it returns or raises, the object is
    left as it was; and before [init()] has created the counter it raises
    [AttributeError] on [iter], for every solver. *)
Theorem done_reads_only (Env : Type) (v : Solver.obj Env) :
  final (Solver.done v) = v /\
  (Solver.iter v = None ->
   Solver.done v = Raise (AttributeError "iter") v).
Proof.
  destruct v as [s|s|s|s|s|s|s];
    unfold Solver.done, Solver.iter, Solver.alg, lift, Alg.done,
      Alg.self_done; simpl.
  - unfold Alg._done, bind, getattr, get, ret.
    destruct (Alg.iter (PowerMethod.alg s)); split; try reflexivity;
      discriminate.
  - unfold Alg._done, bind, getattr, get, ret.
    destruct (Alg.iter (ProximalPointMethod.alg s)); split; try reflexivity;
      discriminate.
  - unfold GradientMethod._done, bind, getattr, get, ret.
    destruct (Alg.iter (GradientMethod.alg s)) as [i|];
      [|split; reflexivity].
    split; [|discriminate].
    destruct (Alg.max_iter (GradientMethod.alg s) <=? i)%Z; [reflexivity|].
    now destruct (GradientMethod.residual s).
  - unfold ConjugateGradient._done, bind, getattr, get, ret.
    destruct (Alg.iter (ConjugateGradient.alg s)) as [i|];
      [|split; reflexivity].
    split; [|discriminate].
    destruct (Alg.max_iter (ConjugateGradient.alg s) <=? i)%Z; [reflexivity|].
    destruct (ConjugateGradient.zero_gradient s) as [[|]|]; try reflexivity.
    now destruct (ConjugateGradient.residual s).
  - unfold Alg._done, bind, getattr, get, ret.
    destruct (Alg.iter (NewtonsMethod.alg s)); split; try reflexivity;
      discriminate.
  - unfold Alg._done, bind, getattr, get, ret.
    destruct (Alg.iter (PrimalDualHybridGradient.alg s)); split;
      try reflexivity; discriminate.
  - unfold Alg._done, bind, getattr, get, ret.
    destruct (Alg.iter (AltMin.alg s)); split; try reflexivity;
      discriminate.
Qed.

Lemma done_reads_only_witness :
  Solver.done (Solver.Conjugate unit
                 (ConjugateGradient.__init__ (fun w => w) [Fin 1%R]
                                             [Fin 0%R] None 5))
  = Raise (AttributeError "iter")
          (Solver.Conjugate unit
             (ConjugateGradient.__init__ (fun w => w) [Fin 1%R]
                                         [Fin 0%R] None 5)).
Proof.
  apply (done_reads_only unit). reflexivity.
Defined.

(** X2. [update()] on an object that [init()] has not prepared raises
    [AttributeError] at the first buffer it reads, before anything is
    written: [p] for conjugate gradient, [u_old] for the primal-dual
    method, [x_old] for a gradient method that accelerates or has a
    proximal step. *)
Theorem update_before_init :
  (forall A b x P max_iter,
      Alg.update (ConjugateGradient.__init__ A b x P max_iter)
      = Raise (AttributeError "p")
              (ConjugateGradient.__init__ A b x P max_iter)) /\
  (forall proxfc proxg A AH x u tau sigma gp gd max_iter,
      Alg.update (PrimalDualHybridGradient.__init__
                    proxfc proxg A AH x u tau sigma gp gd max_iter)
      = Raise (AttributeError "u_old")
              (PrimalDualHybridGradient.__init__
                 proxfc proxg A AH x u tau sigma gp gd max_iter)) /\
  (forall gradf x alpha proxg accelerate max_iter,
      GradientMethod.keeps_x_old
        (GradientMethod.__init__ gradf x alpha proxg accelerate max_iter)
      = true ->
      Alg.update
        (GradientMethod.__init__ gradf x alpha proxg accelerate max_iter)
      = Raise (AttributeError "x_old")
              (GradientMethod.__init__ gradf x alpha proxg accelerate
                                       max_iter)).
Proof.
  split; [|split].
  - intros. apply update_raises. reflexivity.
  - intros. apply update_raises. reflexivity.
  - intros gradf x alpha proxg accelerate max_iter Hk.
    apply update_raises.
    unfold GradientMethod.keeps_x_old in Hk. simpl in Hk.
    destruct accelerate, proxg; try discriminate; reflexivity.
Qed.

Lemma update_before_init_witness :
  Alg.update (GradientMethod.__init__ (fun w => w) [Fin 1%R] (Fin 1%R)
                                      None true 10)
  = Raise (AttributeError "x_old")
          (GradientMethod.__init__ (fun w => w) [Fin 1%R] (Fin 1%R)
                                   None true 10).
Proof.
  destruct update_before_init as (_ & _ & H). apply H. reflexivity.
Defined.

(** ** Proximal point method and alternating minimization *)

Lemma ProximalPointMethod_run (k : nat) :
  forall (s : ProximalPointMethod.obj) (i : Z),
    Alg.iter (ProximalPointMethod.alg s) = Some i ->
    repeat_call k Alg.update s =
    Return tt
      (ProximalPointMethod.set_alg
         (Alg.set_iter (Some (i + Z.of_nat k)%Z) (ProximalPointMethod.alg s))
         (ProximalPointMethod.set_x
            (Nat.iter k (ProximalPointMethod.proxf s
                           (ProximalPointMethod.alpha s))
                      (ProximalPointMethod.x s)) s)).
Proof.
  induction k as [|k IH]; intros s i Hi.
  - destruct s as [proxf alpha x [m it]]. simpl in Hi. subst it.
    cbn [repeat_call Nat.iter Z.of_nat]. rewrite Z.add_0_r. reflexivity.
  - cbn [repeat_call]. unfold bind at 1.
    rewrite (@update_returns _ ProximalPointMethod.subclass s
               (ProximalPointMethod.set_x
                  (ProximalPointMethod.proxf s (ProximalPointMethod.alpha s)
                                             (ProximalPointMethod.x s)) s)
               i eq_refl Hi).
    match goal with
    | |- repeat_call k _ ?s1 = _ => rewrite (IH s1 (i + 1)%Z eq_refl)
    end.
    replace (i + Z.of_nat (S k))%Z with (i + 1 + Z.of_nat k)%Z by lia.
    rewrite Nat.iter_succ_r.
    destruct s as [proxf alpha x [m it]]. reflexivity.
Qed.

(** X3. Proximal point method: after [init()] and [k] calls of
    [update()] the iterate is [proxf(alpha, .)] applied [k] times to the
    starting point, and the counter is [k]; nothing else stops the
    iteration ([done()] is true exactly when [max_iter <= k]). *)
Theorem ProximalPointMethod_iterates
        (proxf : step -> array -> array) (alpha : step) (x0 : array)
        (max_iter : Z) (k : nat) :
  exists s,
    (Alg.init ;; repeat_call k Alg.update)
      (ProximalPointMethod.__init__ proxf alpha x0 max_iter) = Return tt s /\
    ProximalPointMethod.x s = Nat.iter k (proxf alpha) x0 /\
    Alg.iter (ProximalPointMethod.alg s) = Some (Z.of_nat k) /\
    Alg.done s = Return (max_iter <=? Z.of_nat k)%Z s.
Proof.
  eexists. split.
  - unfold bind at 1. cbn [Alg.init]. 
    change (Alg.init (ProximalPointMethod.__init__ proxf alpha x0 max_iter))
      with (Return tt (ProximalPointMethod.mk proxf alpha x0
                         (Alg.mk max_iter (Some 0%Z)))).
    cbv beta iota.
    apply (ProximalPointMethod_run k _ 0%Z). reflexivity.
  - split; [reflexivity|]. split; [reflexivity|].
    unfold Alg.done. simpl. now rewrite (default_done _ _ (Z.of_nat k)).
Qed.

Lemma AltMin_run (Env : Type) (k : nat) :
  forall (s : AltMin.obj Env) (i : Z),
    Alg.iter (AltMin.alg s) = Some i ->
    repeat_call k Alg.update s =
    Return tt
      (AltMin.set_alg
         (Alg.set_iter (Some (i + Z.of_nat k)%Z) (AltMin.alg s))
         (AltMin.set_env
            (Nat.iter k (fun e => AltMin.min2 s (AltMin.min1 s e))
                      (AltMin.env s)) s)).
Proof.
  induction k as [|k IH]; intros s i Hi.
  - destruct s as [min1 min2 env [m it]]. simpl in Hi. subst it.
    cbn [repeat_call Nat.iter Z.of_nat]. rewrite Z.add_0_r. reflexivity.
  - cbn [repeat_call]. unfold bind at 1.
    rewrite (@update_returns _ (AltMin.subclass Env) s
               (AltMin.set_env
                  (AltMin.min2 s (AltMin.min1 s (AltMin.env s))) s)
               i eq_refl Hi).
    match goal with
    | |- repeat_call k _ ?s1 = _ => rewrite (IH s1 (i + 1)%Z eq_refl)
    end.
    replace (i + Z.of_nat (S k))%Z with (i + 1 + Z.of_nat k)%Z by lia.
    rewrite Nat.iter_succ_r.
    destruct s as [min1 min2 env [m it]]. reflexivity.
Qed.

(** X4. Alternating minimization: every [update()] runs [min1] and then
    [min2] on the captured variables, in that order, so that after
    [init()] and [k] updates they are [min2 . min1] applied [k] times. *)
Theorem AltMin_iterates (Env : Type) (min1 min2 : Env -> Env) (e0 : Env)
        (max_iter : Z) (k : nat) :
  exists s,
    (Alg.init ;; repeat_call k Alg.update)
      (AltMin.__init__ min1 min2 e0 max_iter) = Return tt s /\
    AltMin.env s = Nat.iter k (fun e => min2 (min1 e)) e0 /\
    Alg.iter (AltMin.alg s) = Some (Z.of_nat k).
Proof.
  eexists. split.
  - unfold bind at 1.
    change (Alg.init (AltMin.__init__ min1 min2 e0 max_iter))
      with (Return tt (AltMin.mk min1 min2 e0 (Alg.mk max_iter (Some 0%Z)))).
    cbv beta iota.
    apply (AltMin_run Env k _ 0%Z). reflexivity.
  - split; reflexivity.
Qed.

(** ** Shapes *)

Lemma map2_length {A B C : Type} (f : A -> B -> C) (l : list A) (l' : list B) :
  List.length (map2 f l l') = Nat.min (List.length l) (List.length l').
Proof.
  revert l'. induction l as [|a l IH]; intros [|b l']; try reflexivity.
  cbn [map2 List.length Nat.min]. now rewrite IH.
Qed.

Lemma map2_same_length {A B C : Type} (f : A -> B -> C) (n : nat)
      (l : list A) (l' : list B) :
  List.length l = n -> List.length l' = n -> List.length (map2 f l l') = n.
Proof. intros H H'. rewrite map2_length, H, H'. apply Nat.min_id. Qed.

Lemma vsub_shape (n : nat) (x y : array) :
  List.length x = n -> List.length y = n -> List.length (vsub x y) = n.
Proof. apply map2_same_length. Qed.

Lemma vadd_shape (n : nat) (x y : array) :
  List.length x = n -> List.length y = n -> List.length (vadd x y) = n.
Proof. apply map2_same_length. Qed.

Lemma smul_shape (a : scalar) (x : array) :
  List.length (smul a x) = List.length x.
Proof. apply length_map. Qed.

Lemma axpy_shape (n : nat) (y : array) (a : scalar) (x : array) :
  List.length y = n -> List.length x = n -> List.length (util.axpy y a x) = n.
Proof.
  intros Hy Hx. unfold util.axpy. apply vadd_shape; [exact Hy|].
  now rewrite smul_shape.
Qed.

Lemma xpay_shape (n : nat) (y : array) (a : scalar) (x : array) :
  List.length y = n -> List.length x = n -> List.length (util.xpay y a x) = n.
Proof.
  intros Hy Hx. unfold util.xpay. apply vadd_shape; [exact Hx|].
  now rewrite smul_shape.
Qed.

(** ** Conjugate gradient: buffers *)

(** One [update()] on an initialised object whose [r] is the array [b]. *)
Lemma ConjugateGradient_update_shaped (n : nat) (s : ConjugateGradient.obj) :
  ConjugateGradient_initialised s = true ->
  ConjugateGradient.r s = Some (ConjugateGradient.b s) ->
  ConjugateGradient_shaped n s ->
  exists s' i,
    Alg.update s = Return tt s' /\
    Alg.iter (ConjugateGradient.alg s) = Some i /\
    Alg.iter (ConjugateGradient.alg s') = Some (i + 1)%Z /\
    ConjugateGradient_initialised s' = true /\
    ConjugateGradient.r s' = Some (ConjugateGradient.b s') /\
    ConjugateGradient_shaped n s'.
Proof.
  destruct s as [A P x b rzold [m it] r p zg res alpha].
  unfold ConjugateGradient_initialised, ConjugateGradient_shaped. simpl.
  destruct it as [i|]; [|discriminate].
  destruct rzold as [rz|]; [|discriminate].
  destruct r as [rv|]; [|discriminate].
  destruct p as [pv|]; [|discriminate].
  destruct zg as [zg|]; [|discriminate].
  destruct res as [res|]; [|discriminate]. intros _ Hr (Hx & Hb & Hp & HA & HP).
  injection Hr as ->.
  pose proof (Hp pv eq_refl) as Hpv.
  pose proof (HA pv Hpv) as HAp.
  set (a := fdiv rz (util.dot pv (A pv))).
  set (r1 := util.axpy b (fneg a) (A pv)).
  assert (Hr1 : List.length r1 = n) by (now apply axpy_shape).
  assert (Hx1 : List.length (util.axpy x a pv) = n) by (now apply axpy_shape).
  destruct (feqb (util.dot pv (A pv)) (Fin 0%R)) eqn:Hz.
  - exists (ConjugateGradient.mk A P x b (Some rz) (Alg.mk m (Some (i + 1)%Z))
              (Some b) (Some pv) (Some true) (Some res) alpha), i.
    split.
    { unfold Alg.update, Alg.self_update, Alg.self_iter,
        ConjugateGradient.subclass, ConjugateGradient._update,
        bind, getattr, get, modify. simpl. now rewrite Hz. }
    repeat split; try assumption.
  - destruct (i <? m - 1)%Z eqn:Hlast.
    + set (z1 := match P with Some pre => pre r1 | None => r1 end).
      assert (Hz1 : List.length z1 = n).
      { subst z1. destruct P as [pre|]; [|exact Hr1]. now apply (HP pre). }
      set (rznew := util.dot r1 z1).
      exists (ConjugateGradient.mk A P (util.axpy x a pv) r1 (Some rznew)
                (Alg.mk m (Some (i + 1)%Z)) (Some r1)
                (Some (util.xpay pv (fdiv rznew rz) z1)) (Some zg)
                (Some (pow_half rznew)) (Some a)), i.
      split.
      { unfold Alg.update, Alg.self_update, Alg.self_iter,
          ConjugateGradient.subclass, ConjugateGradient._update,
          ConjugateGradient.precondition, ConjugateGradient.write_r,
          bind, getattr, get, modify. simpl. rewrite Hz. simpl.
        rewrite Hlast. subst rznew z1 r1 a.
        destruct P as [pre|]; reflexivity. }
      repeat split; try assumption.
      intros pv' Hpv'. injection Hpv' as <-. now apply xpay_shape.
    + exists (ConjugateGradient.mk A P (util.axpy x a pv) b (Some rz)
                (Alg.mk m (Some (i + 1)%Z)) (Some b) (Some pv) (Some zg)
                (Some (pow_half rz)) (Some a)), i.
      split.
      { unfold Alg.update, Alg.self_update, Alg.self_iter,
          ConjugateGradient.subclass, ConjugateGradient._update,
          bind, getattr, get, modify. simpl. rewrite Hz. simpl.
        rewrite Hlast. reflexivity. }
      repeat split; try assumption.
Qed.

Lemma ConjugateGradient_init_shaped (n : nat) (o : ConjugateGradient.obj) :
  List.length (ConjugateGradient.x o) = n ->
  List.length (ConjugateGradient.b o) = n ->
  maps_shape n n (ConjugateGradient.A o) ->
  (forall pre, ConjugateGradient.P o = Some pre -> maps_shape n n pre) ->
  exists s,
    Alg.init o = Return tt s /\
    Alg.iter (ConjugateGradient.alg s) = Some 0%Z /\
    ConjugateGradient_initialised s = true /\
    ConjugateGradient.r s = Some (ConjugateGradient.b s) /\
    ConjugateGradient.b s
    = vsub (ConjugateGradient.b o)
           (ConjugateGradient.A o (ConjugateGradient.x o)) /\
    ConjugateGradient_shaped n s.
Proof.
  destruct o as [A P x b rzold [m it] r p zg res alpha]. simpl.
  intros Hx Hb HA HP.
  set (b0 := vsub b (A x)).
  assert (Hb0 : List.length b0 = n) by (apply vsub_shape; auto).
  set (z0 := match P with Some pre => pre b0 | None => b0 end).
  assert (Hz0 : List.length z0 = n).
  { subst z0. destruct P as [pre|]; [|exact Hb0]. now apply (HP pre). }
  exists (ConjugateGradient.mk A P x b0 (Some (util.dot b0 z0))
            (Alg.mk m (Some 0%Z)) (Some b0) (Some z0) (Some false)
            (Some (pow_half (util.dot b0 z0))) alpha).
  split.
  { unfold Alg.init, Alg.self_init, ConjugateGradient.subclass,
      ConjugateGradient._init, ConjugateGradient.precondition,
      bind, getattr, get, modify.
    subst z0 b0. destruct P as [pre|]; simpl; destruct (1 <? m)%Z;
      reflexivity. }
  unfold ConjugateGradient_shaped. simpl. repeat split; try assumption.
  intros pv Hpv. now injection Hpv as <-.
Qed.

Lemma ConjugateGradient_run_shaped (n k : nat) :
  forall (s : ConjugateGradient.obj) (i : Z),
    ConjugateGradient_initialised s = true ->
    ConjugateGradient.r s = Some (ConjugateGradient.b s) ->
    ConjugateGradient_shaped n s ->
    Alg.iter (ConjugateGradient.alg s) = Some i ->
    exists s',
      repeat_call k Alg.update s = Return tt s' /\
      Alg.iter (ConjugateGradient.alg s') = Some (i + Z.of_nat k)%Z /\
      ConjugateGradient.r s' = Some (ConjugateGradient.b s') /\
      ConjugateGradient_shaped n s'.
Proof.
  induction k as [|k IH]; intros s i Hs Hr Hn Hi.
  - exists s. split; [reflexivity|]. split; [|now split].
    rewrite Hi. f_equal. simpl. lia.
  - destruct (ConjugateGradient_update_shaped n s Hs Hr Hn)
      as (s1 & j & Hu & Hj & Hj1 & Hs1 & Hr1 & Hn1).
    assert (j = i) by congruence. subst j.
    destruct (IH s1 (i + 1)%Z Hs1 Hr1 Hn1 Hj1) as (s' & Hrun & Hi' & Hr' & Hn').
    exists s'. split; [|split; [|now split]].
    + cbn [repeat_call]. unfold bind at 1. now rewrite Hu.
    + rewrite Hi'. f_equal. lia.
Qed.

(** X5. Conjugate gradient on arrays of one shape ([b] and [x] have [n]
    entries each, [A] and the preconditioner return [n] entries on [n]
    entries): [init()] returns, and after it any number [k] of [update()]
    calls return without an exception, the counter being [k]. The
    caller's [b] is consumed: [init()] overwrites it with [b - A(x)], and
    from then on [r] is that same array, so every in-place update of the
    residual is seen in [b]. The shapes of [x] and [b] never change. *)
Theorem ConjugateGradient_run (o : ConjugateGradient.obj) (n k : nat) :
  List.length (ConjugateGradient.x o) = n ->
  List.length (ConjugateGradient.b o) = n ->
  maps_shape n n (ConjugateGradient.A o) ->
  (forall pre, ConjugateGradient.P o = Some pre -> maps_shape n n pre) ->
  exists s0 s,
    Alg.init o = Return tt s0 /\
    ConjugateGradient.b s0
    = vsub (ConjugateGradient.b o)
           (ConjugateGradient.A o (ConjugateGradient.x o)) /\
    repeat_call k Alg.update s0 = Return tt s /\
    Alg.iter (ConjugateGradient.alg s) = Some (Z.of_nat k) /\
    ConjugateGradient.r s = Some (ConjugateGradient.b s) /\
    List.length (ConjugateGradient.x s) = n /\
    List.length (ConjugateGradient.b s) = n.
Proof.
  intros Hx Hb HA HP.
  destruct (ConjugateGradient_init_shaped n o Hx Hb HA HP)
    as (s0 & Hinit & Hi & Hs0 & Hr0 & Hb0 & Hn0).
  destruct (ConjugateGradient_run_shaped n k s0 0%Z Hs0 Hr0 Hn0 Hi)
    as (s & Hrun & Hk & Hr & Hxs & Hbs & _).
  exists s0, s. repeat split; assumption.
Qed.

Lemma ConjugateGradient_run_witness :
  exists s0 s,
    Alg.init (ConjugateGradient.__init__ (fun v => smul (Fin 2%R) v)
                                         (of_reals [4; 6]%R)
                                         (of_reals [0; 0]%R) None 10)
    = Return tt s0 /\
    repeat_call 3 Alg.update s0 = Return tt s /\
    Alg.iter (ConjugateGradient.alg s) = Some 3%Z /\
    ConjugateGradient.r s = Some (ConjugateGradient.b s).
Proof.
  destruct (ConjugateGradient_run
              (ConjugateGradient.__init__ (fun v => smul (Fin 2%R) v)
                                          (of_reals [4; 6]%R)
                                          (of_reals [0; 0]%R) None 10) 2 3)
    as (s0 & s & Hinit & _ & Hrun & Hi & Hr & _).
  - reflexivity.
  - reflexivity.
  - intros v Hv. cbn [ConjugateGradient.A ConjugateGradient.__init__].
    now rewrite smul_shape.
  - discriminate.
  - exists s0, s. repeat split; assumption.
Defined.


(** ** Real arrays: elementwise operations *)

Section RealArrayOps.

Local Open Scope R_scope.

Lemma vsub_of_reals (xs ys : list R) :
  vsub (of_reals xs) (of_reals ys)
  = of_reals (map2 (fun x y => x + - y) xs ys).
Proof.
  unfold vsub, of_reals. revert ys.
  induction xs as [|x xs IH]; intros [|y ys]; try reflexivity.
  cbn [map map2]. now rewrite IH.
Qed.

End RealArrayOps.

(** ** Conjugate gradient started at a solution *)

Section ZeroArrays.

Local Open Scope R_scope.

Lemma vsub_self (bs : list R) :
  vsub (of_reals bs) (of_reals bs) = repeat (Fin 0) (List.length bs).
Proof.
  unfold vsub, of_reals. induction bs as [|b bs IH]; [reflexivity|].
  cbn [map map2 List.length repeat]. rewrite IH. f_equal.
  cbn. f_equal. ring.
Qed.

Lemma dot_zeros (n : nat) :
  util.dot (repeat (Fin 0) n) (repeat (Fin 0) n) = Fin 0.
Proof.
  unfold util.dot, vmul, fsum. induction n as [|n IH]; [reflexivity|].
  cbn [repeat map2 fold_right]. rewrite IH. cbn. f_equal. ring.
Qed.

Lemma pow_half_zero : pow_half (Fin 0) = Fin 0.
Proof. rewrite pow_half_nonneg by lra. now rewrite sqrt_0. Qed.

End ZeroArrays.

(** The object that [init()] leaves. *)
Lemma ConjugateGradient_init_state
      (A : array -> array) (P : option (array -> array)) (x b : array)
      (rzold : option scalar) (m : Z) (it : option Z) (r p : option array)
      (zg : option bool) (res al : option scalar) :
  let b0 := vsub b (A x) in
  let z0 := match P with Some pre => pre b0 | None => b0 end in
  Alg.init (ConjugateGradient.mk A P x b rzold (Alg.mk m it) r p zg res al)
  = Return tt
      (ConjugateGradient.mk A P x b0 (Some (util.dot b0 z0))
         (Alg.mk m (Some 0%Z)) (Some b0) (Some z0) (Some false)
         (Some (pow_half (util.dot b0 z0))) al).
Proof.
  intros b0 z0.
  unfold Alg.init, Alg.self_init, ConjugateGradient.subclass,
    ConjugateGradient._init, ConjugateGradient.precondition,
    bind, getattr, get, modify.
  subst z0 b0. destruct P as [pre|]; simpl; destruct (1 <? m)%Z;
    reflexivity.
Qed.

(** [done()] on a zero residual. *)
Lemma ConjugateGradient_done_converged
      (s : ConjugateGradient.obj) (i : Z) (zg : bool) :
  Alg.iter (ConjugateGradient.alg s) = Some i ->
  ConjugateGradient.zero_gradient s = Some zg ->
  ConjugateGradient.residual s = Some (Fin 0%R) ->
  Alg.done s = Return true s.
Proof.
  intros Hi Hz Hr.
  destruct s as [A P x b rzold [m it] r p zg' res alpha].
  simpl in Hi, Hz, Hr. subst it zg' res.
  unfold Alg.done, Alg.self_done, ConjugateGradient.subclass,
    ConjugateGradient._done, bind, getattr, get, ret.
  cbn [ConjugateGradient.alg ConjugateGradient.zero_gradient
       ConjugateGradient.residual Alg.iter Alg.max_iter].
  destruct (m <=? i)%Z; [reflexivity|]. destruct zg; [reflexivity|].
  lazy -[feqb IZR array]. now rewrite feqb_zero_zero.
Qed.

(** The object after [init()] at a solution and [k] void iterations. *)
Lemma ConjugateGradient_void_iterations
      (A : array -> array) (P : option (array -> array)) (x : array)
      (n : nat) (m : Z) (al : option scalar) (k : nat) :
  A (repeat (Fin 0%R) n) = repeat (Fin 0%R) n ->
  forall (i : Z) (zg : bool),
    repeat_call k Alg.update
      (ConjugateGradient.mk A P x (repeat (Fin 0%R) n) (Some (Fin 0%R))
         (Alg.mk m (Some i)) (Some (repeat (Fin 0%R) n))
         (Some (repeat (Fin 0%R) n)) (Some zg) (Some (Fin 0%R)) al)
    = Return tt
        (ConjugateGradient.mk A P x (repeat (Fin 0%R) n) (Some (Fin 0%R))
           (Alg.mk m (Some (i + Z.of_nat k)%Z)) (Some (repeat (Fin 0%R) n))
           (Some (repeat (Fin 0%R) n))
           (Some (match k with O => zg | S _ => true end))
           (Some (Fin 0%R)) al).
Proof.
  intros HA. induction k as [|k IH]; intros i zg.
  - cbn [repeat_call Z.of_nat]. rewrite Z.add_0_r. reflexivity.
  - cbn [repeat_call]. unfold bind at 1.
    rewrite (ConjugateGradient_void_update
               (ConjugateGradient.mk A P x (repeat (Fin 0%R) n)
                  (Some (Fin 0%R)) (Alg.mk m (Some i))
                  (Some (repeat (Fin 0%R) n)) (Some (repeat (Fin 0%R) n))
                  (Some zg) (Some (Fin 0%R)) al)
               (repeat (Fin 0%R) n) i eq_refl eq_refl).
    + match goal with
      | |- repeat_call k _ ?s1 = _ =>
          change s1 with
            (ConjugateGradient.mk A P x (repeat (Fin 0%R) n)
               (Some (Fin 0%R)) (Alg.mk m (Some (i + 1)%Z))
               (Some (repeat (Fin 0%R) n)) (Some (repeat (Fin 0%R) n))
               (Some true) (Some (Fin 0%R)) al)
      end.
      rewrite (IH (i + 1)%Z true).
      replace (i + 1 + Z.of_nat k)%Z with (i + Z.of_nat (S k))%Z by lia.
      now destruct k.
    + cbn [ConjugateGradient.A]. rewrite HA, dot_zeros. apply feqb_zero_zero.
Qed.

(** X7. Conjugate gradient started at a solution: when [A(x)] equals
    [b] entry by entry (finite entries), and [A] and the preconditioner
    map the zero array to itself, [init()] leaves the residual at exactly
    0 and [done()] is true at once; every further [update()] is a void
    iteration (zero curvature) that leaves [x] where it is. *)
Theorem ConjugateGradient_started_at_solution
        (A : array -> array) (P : option (array -> array)) (bs : list R)
        (x : array) (max_iter : Z) (k : nat) :
  A x = of_reals bs ->
  A (repeat (Fin 0%R) (List.length bs)) = repeat (Fin 0%R) (List.length bs) ->
  (forall pre, P = Some pre ->
               pre (repeat (Fin 0%R) (List.length bs))
               = repeat (Fin 0%R) (List.length bs)) ->
  exists s0 s,
    Alg.init (ConjugateGradient.__init__ A (of_reals bs) x P max_iter)
    = Return tt s0 /\
    ConjugateGradient.residual s0 = Some (Fin 0%R) /\
    Alg.done s0 = Return true s0 /\
    repeat_call k Alg.update s0 = Return tt s /\
    ConjugateGradient.x s = x /\
    ConjugateGradient.b s = repeat (Fin 0%R) (List.length bs) /\
    ConjugateGradient.residual s = Some (Fin 0%R) /\
    (k <> O -> ConjugateGradient.zero_gradient s = Some true) /\
    Alg.done s = Return true s.
Proof.
  intros Hsol HA HP.
  set (n := List.length bs) in *.
  set (zs := repeat (Fin 0%R) n) in *.
  exists (ConjugateGradient.mk A P x zs (Some (Fin 0%R))
            (Alg.mk max_iter (Some 0%Z)) (Some zs) (Some zs) (Some false)
            (Some (Fin 0%R)) None).
  exists (ConjugateGradient.mk A P x zs (Some (Fin 0%R))
            (Alg.mk max_iter (Some (0 + Z.of_nat k)%Z)) (Some zs) (Some zs)
            (Some (match k with O => false | S _ => true end))
            (Some (Fin 0%R)) None).
  split.
  { assert (Hb0 : vsub (of_reals bs) (A x) = zs)
      by (rewrite Hsol; apply vsub_self).
    assert (Hz0 : match P with Some pre => pre zs | None => zs end = zs)
      by (destruct P as [pre|]; [now apply HP | reflexivity]).
    unfold ConjugateGradient.__init__, Alg.__init__.
    rewrite ConjugateGradient_init_state. cbv zeta.
    rewrite Hb0, Hz0. unfold zs. now rewrite dot_zeros, pow_half_zero. }
  split; [reflexivity|].
  split; [apply (ConjugateGradient_done_converged _ 0%Z false); reflexivity|].
  split; [apply ConjugateGradient_void_iterations; exact HA|].
  split; [reflexivity|]. split; [reflexivity|]. split; [reflexivity|].
  split; [destruct k; [congruence | reflexivity]|].
  apply (ConjugateGradient_done_converged
           _ (0 + Z.of_nat k)%Z (match k with O => false | S _ => true end));
    reflexivity.
Qed.

Lemma ConjugateGradient_started_at_solution_witness :
  exists s0 s,
    Alg.init (ConjugateGradient.__init__ (fun v => v) (of_reals [4; 6]%R)
                                         (of_reals [4; 6]%R) None 10)
    = Return tt s0 /\
    repeat_call 2 Alg.update s0 = Return tt s /\
    ConjugateGradient.x s = of_reals [4; 6]%R /\
    Alg.done s = Return true s.
Proof.
  destruct (ConjugateGradient_started_at_solution
              (fun v => v) None [4; 6]%R (of_reals [4; 6]%R) 10 2)
    as (s0 & s & Hinit & _ & _ & Hrun & Hx & _ & _ & _ & Hdone).
  - reflexivity.
  - reflexivity.
  - discriminate.
  - exists s0, s. repeat split; assumption.
Defined.

(** ** Primal-dual hybrid gradient: step-size adaptation *)

(** [update()] of the primal-dual method, given what the adaptation block
    does on the state it runs in. *)
Lemma PDHG_update_via_adapt
      (proxfc proxg : step -> array -> array) (A AH : array -> array)
      (u x : array) (tau sigma : step) (gp gd : scalar) (m i : Z)
      (xe uo xo : array) (theta : scalar) (tau' sigma' : step) :
  let u1 := proxfc sigma (vadd u (step_apply sigma (A xe))) in
  let x1 := proxg tau (vsub x (step_apply tau (AH u1))) in
  PrimalDualHybridGradient.adapt
    (PrimalDualHybridGradient.mk proxfc proxg A AH u1 x1 tau sigma gp gd
       (Alg.mk m (Some i)) (Some xe) (Some u) (Some x))
  = Return theta
      (PrimalDualHybridGradient.mk proxfc proxg A AH u1 x1 tau' sigma' gp gd
         (Alg.mk m (Some i)) (Some xe) (Some u) (Some x)) ->
  Alg.update
    (PrimalDualHybridGradient.mk proxfc proxg A AH u x tau sigma gp gd
       (Alg.mk m (Some i)) (Some xe) (Some uo) (Some xo))
  = Return tt
      (PrimalDualHybridGradient.mk proxfc proxg A AH u1 x1 tau' sigma' gp gd
         (Alg.mk m (Some (i + 1)%Z))
         (Some (vadd x1 (smul theta (vsub x1 x)))) (Some u) (Some x)).
Proof.
  intros u1 x1 Had. subst u1 x1.
  unfold Alg.update, Alg.self_update, Alg.self_iter,
    PrimalDualHybridGradient.subclass, PrimalDualHybridGradient._update.
  lazy -[PrimalDualHybridGradient.adapt vadd vsub smul step_apply Z.add
         array IZR].
  rewrite Had. reflexivity.
Qed.

Section Adaptation.

Local Open Scope R_scope.

Lemma fgtb_pos (g : R) : 0 < g -> fgtb (Fin g) (Fin 0) = true.
Proof.
  intros Hg. simpl. destruct (Rlt_dec 0 g); [reflexivity | contradiction].
Qed.


Lemma fabs_abs_value (a : scalar) : abs_value (fabs a).
Proof. destruct a; simpl; auto. apply Rabs_pos. Qed.

Lemma fmin_abs_value (a b : scalar) :
  abs_value a -> abs_value b -> abs_value (fmin a b).
Proof.
  intros Ha Hb. unfold fmin.
  destruct a, b; try exact I; try contradiction;
    match goal with |- context [fgtb ?u ?v] => destruct (fgtb u v) end;
    assumption.
Qed.

Lemma fold_fmin_abs_value (l : list scalar) :
  forall acc, abs_value acc -> Forall abs_value l ->
              abs_value (fold_left fmin l acc).
Proof.
  induction l as [|a l IH]; intros acc Hacc Hl; [exact Hacc|].
  inversion Hl; subst. cbn [fold_left]. apply IH; [|assumption].
  now apply fmin_abs_value.
Qed.

Lemma step_amin_abs_value {S : Type} (t : step) (s : S) (m : scalar) :
  step_amin_abs t s = Return m s -> abs_value m.
Proof.
  destruct t as [a|[|a w]]; simpl.
  - intros H. injection H as <-. apply fabs_abs_value.
  - discriminate.
  - unfold ret. intros H. injection H as <-.
    apply fold_fmin_abs_value; [apply fabs_abs_value|].
    induction w as [|e w IH]; constructor; [apply fabs_abs_value | exact IH].
Qed.

(** The minimum does not depend on the object it is computed on. *)
Lemma step_amin_abs_anywhere {S T : Type} (t : step) (s : S) (s' : T)
      (m : scalar) :
  step_amin_abs t s = Return m s -> step_amin_abs t s' = Return m s'.
Proof.
  destruct t as [a|[|a w]]; simpl; unfold ret, raise; intros H;
    try discriminate; now injection H as <-.
Qed.

(** The factor of the adaptation is never greater than 1. *)
Lemma theta_at_most_one (gamma m : scalar) :
  fgtb gamma (Fin 0) = true -> abs_value m ->
  fgtb (PDHG_theta gamma m) (Fin 1) = false.
Proof.
  unfold PDHG_theta. intros Hg Hm.
  assert (H2 : inf_signed 2 = PInf).
  { unfold inf_signed. destruct (Rlt_dec 0 2); [reflexivity | lra]. }
  destruct gamma as [g| | |]; simpl in Hg; try discriminate.
  - destruct (Rlt_dec 0 g) as [Hg0|]; [|discriminate]. clear Hg.
    destruct m as [r| | |]; simpl in Hm; try contradiction.
    + cbn [fmul fadd].
      assert (H1 : 1 <= 1 + 2 * g * r) by nra.
      assert (Hs : 1 <= sqrt (1 + 2 * g * r)).
      { rewrite <- sqrt_1 at 1. apply sqrt_le_1; lra. }
      rewrite pow_half_nonneg by lra. rewrite fdiv_fin by lra.
      simpl. destruct (Rlt_dec 1 (1 / sqrt (1 + 2 * g * r))) as [Hlt|];
        [|reflexivity].
      exfalso.
      assert (Hle : 1 / sqrt (1 + 2 * g * r) <= 1); [|lra].
      apply Rmult_le_reg_r with (sqrt (1 + 2 * g * r)); [lra|].
      unfold Rdiv. rewrite Rmult_assoc, Rinv_l by lra. lra.
    + cbn [fmul]. unfold inf_signed.
      destruct (Rlt_dec 0 (2 * g)) as [_|Hn]; [|exfalso; apply Hn; lra].
      simpl. destruct (Rlt_dec 1 0); [lra | reflexivity].
    + reflexivity.
  - cbn [fmul]. rewrite H2.
    destruct m as [r| | |]; simpl in Hm; try contradiction.
    + cbn [fmul]. unfold inf_signed.
      destruct (Rlt_dec 0 r); [|destruct (Rlt_dec r 0); [lra|reflexivity]].
      simpl. destruct (Rlt_dec 1 0); [lra | reflexivity].
    + simpl. destruct (Rlt_dec 1 0); [lra | reflexivity].
    + reflexivity.
Qed.

Lemma adapt_primal (s : PrimalDualHybridGradient.obj) (m : scalar) :
  fgtb (PrimalDualHybridGradient.gamma_primal s) (Fin 0) = true ->
  feqb (PrimalDualHybridGradient.gamma_dual s) (Fin 0) = true ->
  step_amin_abs (PrimalDualHybridGradient.tau s) s = Return m s ->
  let th := PDHG_theta (PrimalDualHybridGradient.gamma_primal s) m in
  PrimalDualHybridGradient.adapt s
  = Return th
      (PrimalDualHybridGradient.set_sigma
         (step_unscale (PrimalDualHybridGradient.sigma s) th)
         (PrimalDualHybridGradient.set_tau
            (step_scale (PrimalDualHybridGradient.tau s) th) s)).
Proof.
  intros Hgp Hgd Hm th. subst th.
  destruct s as [proxfc proxg A AH u x tau sigma gp gd alg xe uo xo].
  cbn [PrimalDualHybridGradient.gamma_primal PrimalDualHybridGradient.gamma_dual
       PrimalDualHybridGradient.tau PrimalDualHybridGradient.sigma]
    in Hgp, Hgd, Hm |- *.
  unfold PrimalDualHybridGradient.adapt, bind at 1 2, get at 1 2.
  cbn [PrimalDualHybridGradient.gamma_primal
       PrimalDualHybridGradient.gamma_dual].
  rewrite Hgp, Hgd. cbn [andb].
  unfold bind at 1, get at 1. cbn [PrimalDualHybridGradient.tau].
  unfold bind at 1. rewrite Hm. reflexivity.
Qed.

Lemma adapt_dual (s : PrimalDualHybridGradient.obj) (m : scalar) :
  feqb (PrimalDualHybridGradient.gamma_primal s) (Fin 0) = true ->
  fgtb (PrimalDualHybridGradient.gamma_dual s) (Fin 0) = true ->
  step_amin_abs (PrimalDualHybridGradient.sigma s) s = Return m s ->
  let th := PDHG_theta (PrimalDualHybridGradient.gamma_dual s) m in
  PrimalDualHybridGradient.adapt s
  = Return th
      (PrimalDualHybridGradient.set_sigma
         (step_scale (PrimalDualHybridGradient.sigma s) th)
         (PrimalDualHybridGradient.set_tau
            (step_unscale (PrimalDualHybridGradient.tau s) th) s)).
Proof.
  intros Hgp Hgd Hm th. subst th.
  destruct s as [proxfc proxg A AH u x tau sigma gp gd alg xe uo xo].
  cbn [PrimalDualHybridGradient.gamma_primal PrimalDualHybridGradient.gamma_dual
       PrimalDualHybridGradient.tau PrimalDualHybridGradient.sigma]
    in Hgp, Hgd, Hm |- *.
  assert (Hnp : fgtb gp (Fin 0) = false).
  { destruct gp as [r| | |]; simpl in Hgp |- *; try discriminate.
    destruct (Req_dec_T r 0) as [->|]; [|discriminate].
    destruct (Rlt_dec 0 0); [lra | reflexivity]. }
  unfold PrimalDualHybridGradient.adapt, bind at 1 2, get at 1 2.
  cbn [PrimalDualHybridGradient.gamma_primal
       PrimalDualHybridGradient.gamma_dual].
  rewrite Hnp, Hgp, Hgd. cbn [andb].
  unfold bind at 1, get at 1. cbn [PrimalDualHybridGradient.sigma].
  unfold bind at 1. rewrite Hm. reflexivity.
Qed.


End Adaptation.

(** X8. Primal-dual method after [init()], on arrays of matching shapes,
    with a strongly convex [g] ([gamma_primal > 0], [gamma_dual == 0]):
    with [m] the minimum of [|tau|], [update()] computes
    [theta = 1 / (1 + 2 * gamma_primal * m)**0.5], multiplies [tau] by
    [theta], divides [sigma] by [theta] and extrapolates with this
    [theta]; and [theta] is never greater than 1. *)
Theorem PDHG_primal_acceleration
        (s : PrimalDualHybridGradient.obj) (nx nu : nat) (m : scalar) :
  PDHG_initialised s = true ->
  PDHG_shaped nx nu s ->
  fgtb (PrimalDualHybridGradient.gamma_primal s) (Fin 0%R) = true ->
  feqb (PrimalDualHybridGradient.gamma_dual s) (Fin 0%R) = true ->
  step_amin_abs (PrimalDualHybridGradient.tau s) s = Return m s ->
  let theta := PDHG_theta (PrimalDualHybridGradient.gamma_primal s) m in
  exists s',
    Alg.update s = Return tt s' /\
    PrimalDualHybridGradient.tau s'
    = step_scale (PrimalDualHybridGradient.tau s) theta /\
    PrimalDualHybridGradient.sigma s'
    = step_unscale (PrimalDualHybridGradient.sigma s) theta /\
    fgtb theta (Fin 1%R) = false /\
    PrimalDualHybridGradient.x_ext s' =
    Some (vadd (PrimalDualHybridGradient.x s')
               (smul theta
                     (vsub (PrimalDualHybridGradient.x s')
                           (PrimalDualHybridGradient.x s)))).
Proof.
  intros Hs _ Hgp Hgd Hm theta.
  assert (Hle : fgtb theta (Fin 1%R) = false).
  { apply theta_at_most_one; [exact Hgp|].
    exact (step_amin_abs_value _ _ _ Hm). }
  destruct s as [proxfc proxg A AH u x tau sigma gp gd [mi it] xe uo xo].
  unfold PDHG_initialised in Hs.
  cbn [PrimalDualHybridGradient.gamma_primal PrimalDualHybridGradient.gamma_dual
       PrimalDualHybridGradient.tau PrimalDualHybridGradient.sigma
       PrimalDualHybridGradient.x] in *.
  simpl in Hs.
  destruct it as [i|]; [|discriminate].
  destruct xe as [xe|]; [|discriminate].
  destruct uo as [uo|]; [|discriminate].
  destruct xo as [xo|]; [|discriminate]. clear Hs.
  eexists. split.
  - apply PDHG_update_via_adapt
      with (theta := theta) (tau' := step_scale tau theta)
           (sigma' := step_unscale sigma theta).
    match goal with
    | |- PrimalDualHybridGradient.adapt ?s1 = _ =>
        exact (adapt_primal s1 m Hgp Hgd (step_amin_abs_anywhere _ _ s1 _ Hm))
    end.
  - split; [reflexivity|]. split; [reflexivity|]. split; [exact Hle|].
    reflexivity.
Qed.

Lemma PDHG_primal_acceleration_witness :
  let s := final (Alg.init (PrimalDualHybridGradient.__init__
                              (fun _ w => w) (fun _ w => w)
                              (fun w => w) (fun w => w)
                              [Fin 1%R] [Fin 2%R]
                              (Float (Fin 4%R)) (Float (Fin 3%R))
                              (Fin 1%R) (Fin 0%R) 100)) in
  exists s',
    Alg.update s = Return tt s' /\
    PrimalDualHybridGradient.tau s'
    = Float (fmul (Fin 4%R) (PDHG_theta (Fin 1%R) (fabs (Fin 4%R)))).
Proof.
  intros s.
  assert (Hn : PDHG_shaped 1 1 s).
  { unfold PDHG_shaped. simpl. repeat split; try (intros v Hv; exact Hv);
      try (intros t v Hv; exact Hv).
    intros xe H. now injection H as <-. }
  destruct (PDHG_primal_acceleration s 1 1 (fabs (Fin 4%R)) eq_refl Hn
              (fgtb_pos 1 Rlt_0_1) feqb_zero_zero eq_refl)
    as (s' & Hu & Htau & _).
  exists s'. split; [exact Hu | exact Htau].
Defined.

(** X9. The mirror case, a strongly convex [f*] ([gamma_dual > 0],
    [gamma_primal == 0]), again after [init()] and on arrays of matching
    shapes: with [m] the minimum of [|sigma|], [update()]
    computes [theta = 1 / (1 + 2 * gamma_dual * m)**0.5], divides [tau]
    by [theta], multiplies [sigma] by [theta] and extrapolates with this
    [theta]; again [theta] is never greater than 1. *)
Theorem PDHG_dual_acceleration
        (s : PrimalDualHybridGradient.obj) (nx nu : nat) (m : scalar) :
  PDHG_initialised s = true ->
  PDHG_shaped nx nu s ->
  feqb (PrimalDualHybridGradient.gamma_primal s) (Fin 0%R) = true ->
  fgtb (PrimalDualHybridGradient.gamma_dual s) (Fin 0%R) = true ->
  step_amin_abs (PrimalDualHybridGradient.sigma s) s = Return m s ->
  let theta := PDHG_theta (PrimalDualHybridGradient.gamma_dual s) m in
  exists s',
    Alg.update s = Return tt s' /\
    PrimalDualHybridGradient.tau s'
    = step_unscale (PrimalDualHybridGradient.tau s) theta /\
    PrimalDualHybridGradient.sigma s'
    = step_scale (PrimalDualHybridGradient.sigma s) theta /\
    fgtb theta (Fin 1%R) = false /\
    PrimalDualHybridGradient.x_ext s' =
    Some (vadd (PrimalDualHybridGradient.x s')
               (smul theta
                     (vsub (PrimalDualHybridGradient.x s')
                           (PrimalDualHybridGradient.x s)))).
Proof.
  intros Hs _ Hgp Hgd Hm theta.
  assert (Hle : fgtb theta (Fin 1%R) = false).
  { apply theta_at_most_one; [exact Hgd|].
    exact (step_amin_abs_value _ _ _ Hm). }
  destruct s as [proxfc proxg A AH u x tau sigma gp gd [mi it] xe uo xo].
  unfold PDHG_initialised in Hs.
  cbn [PrimalDualHybridGradient.gamma_primal PrimalDualHybridGradient.gamma_dual
       PrimalDualHybridGradient.tau PrimalDualHybridGradient.sigma
       PrimalDualHybridGradient.x] in *.
  simpl in Hs.
  destruct it as [i|]; [|discriminate].
  destruct xe as [xe|]; [|discriminate].
  destruct uo as [uo|]; [|discriminate].
  destruct xo as [xo|]; [|discriminate]. clear Hs.
  eexists. split.
  - apply PDHG_update_via_adapt
      with (theta := theta) (tau' := step_unscale tau theta)
           (sigma' := step_scale sigma theta).
    match goal with
    | |- PrimalDualHybridGradient.adapt ?s1 = _ =>
        exact (adapt_dual s1 m Hgp Hgd (step_amin_abs_anywhere _ _ s1 _ Hm))
    end.
  - split; [reflexivity|]. split; [reflexivity|]. split; [exact Hle|].
    reflexivity.
Qed.

Lemma PDHG_dual_acceleration_witness :
  let s := final (Alg.init (PrimalDualHybridGradient.__init__
                              (fun _ w => w) (fun _ w => w)
                              (fun w => w) (fun w => w)
                              [Fin 1%R] [Fin 2%R]
                              (Float (Fin 4%R)) (Arr [Fin 3%R])
                              (Fin 0%R) (Fin 1%R) 100)) in
  exists s',
    Alg.update s = Return tt s' /\
    PrimalDualHybridGradient.sigma s'
    = Arr [fmul (Fin 3%R) (PDHG_theta (Fin 1%R) (fabs (Fin 3%R)))].
Proof.
  intros s.
  assert (Hn : PDHG_shaped 1 1 s).
  { unfold PDHG_shaped. simpl. repeat split; try (intros v Hv; exact Hv);
      try (intros t v Hv; exact Hv).
    intros xe H. now injection H as <-. }
  destruct (PDHG_dual_acceleration s 1 1 (fabs (Fin 3%R)) eq_refl Hn
              feqb_zero_zero (fgtb_pos 1 Rlt_0_1) eq_refl)
    as (s' & Hu & _ & Hsig & _).
  exists s'. split; [exact Hu | exact Hsig].
Defined.



(** ** Primal-dual hybrid gradient: shapes *)

Lemma step_apply_shape (n : nat) (t : step) (v : array) :
  step_shape n t -> List.length v = n -> List.length (step_apply t v) = n.
Proof.
  destruct t as [a|w]; simpl; intros Ht Hv.
  - now rewrite smul_shape.
  - now apply map2_same_length.
Qed.

Lemma step_scale_shape (n : nat) (t : step) (theta : scalar) :
  step_shape n t -> step_shape n (step_scale t theta).
Proof. destruct t as [a|w]; simpl; [auto|]. now rewrite length_map. Qed.

Lemma step_unscale_shape (n : nat) (t : step) (theta : scalar) :
  step_shape n t -> step_shape n (step_unscale t theta).
Proof.
  destruct t as [a|w]; simpl; [auto|]. unfold sdiv. now rewrite length_map.
Qed.

(** The adaptation block on step sizes that have a minimum: it returns,
    and rescales [tau] and [sigma] or leaves them. *)
Lemma PDHG_adapt_shaped (s : PrimalDualHybridGradient.obj) :
  step_nonempty (PrimalDualHybridGradient.tau s) = true ->
  step_nonempty (PrimalDualHybridGradient.sigma s) = true ->
  exists theta tau' sigma',
    PrimalDualHybridGradient.adapt s =
    Return theta (PrimalDualHybridGradient.set_sigma sigma'
                    (PrimalDualHybridGradient.set_tau tau' s)) /\
    step_nonempty tau' = true /\ step_nonempty sigma' = true /\
    (forall n, step_shape n (PrimalDualHybridGradient.tau s) ->
               step_shape n tau') /\
    (forall n, step_shape n (PrimalDualHybridGradient.sigma s) ->
               step_shape n sigma').
Proof.
  intros Ht Hs.
  destruct (step_amin_abs_returns (PrimalDualHybridGradient.tau s) s Ht)
    as (mt & Hmt).
  destruct (step_amin_abs_returns (PrimalDualHybridGradient.sigma s) s Hs)
    as (ms & Hms).
  destruct s as [proxfc proxg A AH u x tau sigma gp gd alg xe uo xo].
  cbn [PrimalDualHybridGradient.tau PrimalDualHybridGradient.sigma] in *.
  unfold PrimalDualHybridGradient.adapt, bind at 1 2, get at 1 2.
  cbn [PrimalDualHybridGradient.gamma_primal
       PrimalDualHybridGradient.gamma_dual].
  destruct (fgtb gp (Fin 0%R) && feqb gd (Fin 0%R)).
  - unfold bind at 1, get at 1. cbn [PrimalDualHybridGradient.tau].
    unfold bind at 1. rewrite Hmt.
    do 3 eexists. split; [reflexivity|].
    rewrite step_scale_nonempty, step_unscale_nonempty.
    split; [exact Ht|]. split; [exact Hs|]. split; intros n Hn.
    + now apply step_scale_shape.
    + now apply step_unscale_shape.
  - destruct (feqb gp (Fin 0%R) && fgtb gd (Fin 0%R)).
    + unfold bind at 1, get at 1. cbn [PrimalDualHybridGradient.sigma].
      unfold bind at 1. rewrite Hms.
      do 3 eexists. split; [reflexivity|].
      rewrite step_scale_nonempty, step_unscale_nonempty.
      split; [exact Ht|]. split; [exact Hs|]. split; intros n Hn.
      * now apply step_unscale_shape.
      * now apply step_scale_shape.
    + exists (Fin 1%R), tau, sigma. now repeat split.
Qed.

Lemma PDHG_update_shaped (nx nu : nat) (s : PrimalDualHybridGradient.obj) :
  PDHG_initialised s = true ->
  step_nonempty (PrimalDualHybridGradient.tau s) = true ->
  step_nonempty (PrimalDualHybridGradient.sigma s) = true ->
  PDHG_shaped nx nu s ->
  exists s' i,
    Alg.update s = Return tt s' /\
    Alg.iter (PrimalDualHybridGradient.alg s) = Some i /\
    Alg.iter (PrimalDualHybridGradient.alg s') = Some (i + 1)%Z /\
    PDHG_initialised s' = true /\
    step_nonempty (PrimalDualHybridGradient.tau s') = true /\
    step_nonempty (PrimalDualHybridGradient.sigma s') = true /\
    PDHG_shaped nx nu s'.
Proof.
  intros Hs Ht Hg Hn.
  destruct s as [proxfc proxg A AH u x tau sigma gp gd [m it] xe uo xo].
  unfold PDHG_initialised in Hs. unfold PDHG_shaped in Hn.
  simpl in Hs, Ht, Hg, Hn.
  destruct it as [i|]; [|discriminate].
  destruct xe as [xe|]; [|discriminate].
  destruct uo as [uo|]; [|discriminate].
  destruct xo as [xo|]; [|discriminate]. clear Hs.
  destruct Hn as (Hx & Hu & Hxe & Htau & Hsig & HA & HAH & Hpf & Hpg).
  pose proof (Hxe xe eq_refl) as Hxe'.
  set (u1 := proxfc sigma (vadd u (step_apply sigma (A xe)))).
  set (x1 := proxg tau (vsub x (step_apply tau (AH u1)))).
  assert (Hu1 : List.length u1 = nu).
  { subst u1. apply Hpf, vadd_shape; [exact Hu|].
    apply step_apply_shape; [exact Hsig|]. now apply HA. }
  assert (Hx1 : List.length x1 = nx).
  { subst x1. apply Hpg, vsub_shape; [exact Hx|].
    apply step_apply_shape; [exact Htau|]. now apply HAH. }
  destruct (PDHG_adapt_shaped
              (PrimalDualHybridGradient.mk proxfc proxg A AH u1 x1 tau sigma
                 gp gd (Alg.mk m (Some i)) (Some xe) (Some u) (Some x))
              Ht Hg)
    as (theta & tau' & sigma' & Had & Ht' & Hg' & Hst & Hss).
  exists (PrimalDualHybridGradient.mk proxfc proxg A AH u1 x1 tau' sigma'
            gp gd (Alg.mk m (Some (i + 1)%Z))
            (Some (vadd x1 (smul theta (vsub x1 x)))) (Some u) (Some x)).
  exists i. split.
  { unfold Alg.update, Alg.self_update, Alg.self_iter,
      PrimalDualHybridGradient.subclass, PrimalDualHybridGradient._update.
    subst u1 x1.
    lazy -[PrimalDualHybridGradient.adapt vadd vsub smul step_apply Z.add array].
    rewrite Had. reflexivity. }
  split; [reflexivity|]. split; [reflexivity|]. split; [reflexivity|].
  split; [exact Ht'|]. split; [exact Hg'|].
  unfold PDHG_shaped. simpl.
  split; [exact Hx1|]. split; [exact Hu1|]. split.
  { intros xe' H. injection H as <-. apply vadd_shape; [exact Hx1|].
    rewrite smul_shape. now apply vsub_shape. }
  split; [now apply Hst|]. split; [now apply Hss|]. now repeat split.
Qed.

Lemma PDHG_run_shaped (nx nu k : nat) :
  forall (s : PrimalDualHybridGradient.obj) (i : Z),
    PDHG_initialised s = true ->
    step_nonempty (PrimalDualHybridGradient.tau s) = true ->
    step_nonempty (PrimalDualHybridGradient.sigma s) = true ->
    PDHG_shaped nx nu s ->
    Alg.iter (PrimalDualHybridGradient.alg s) = Some i ->
    exists s',
      repeat_call k Alg.update s = Return tt s' /\
      Alg.iter (PrimalDualHybridGradient.alg s') = Some (i + Z.of_nat k)%Z /\
      PDHG_initialised s' = true /\
      PDHG_shaped nx nu s'.
Proof.
  induction k as [|k IH]; intros s i Hs Ht Hg Hn Hi.
  - exists s. split; [reflexivity|]. split; [|now split].
    rewrite Hi. f_equal. simpl. lia.
  - destruct (PDHG_update_shaped nx nu s Hs Ht Hg Hn)
      as (s1 & j & Hu & Hj & Hj1 & Hs1 & Ht1 & Hg1 & Hn1).
    assert (j = i) by congruence. subst j.
    destruct (IH s1 (i + 1)%Z Hs1 Ht1 Hg1 Hn1 Hj1)
      as (s' & Hrun & Hi' & Hs' & Hn').
    exists s'. split; [|split; [|now split]].
    + cbn [repeat_call]. unfold bind at 1. now rewrite Hu.
    + rewrite Hi'. f_equal. lia.
Qed.

(** X11. Primal-dual method on arrays of matching shapes ([x] of [nx]
    entries and [u] of [nu]; [A] from [nx] to [nu] entries and [AH] back;
    proximal operators that keep the shape; [tau] a float or an array of
    [nx] entries, [sigma] a float or an array of [nu] entries, neither
    empty): [init()] and any number [k] of [update()] calls return without
    an exception, whatever the strong-convexity parameters; the counter
    is [k] and [x] and [u] keep their shapes. *)
Theorem PDHG_run (o : PrimalDualHybridGradient.obj) (nx nu k : nat) :
  List.length (PrimalDualHybridGradient.x o) = nx ->
  List.length (PrimalDualHybridGradient.u o) = nu ->
  step_nonempty (PrimalDualHybridGradient.tau o) = true ->
  step_nonempty (PrimalDualHybridGradient.sigma o) = true ->
  step_shape nx (PrimalDualHybridGradient.tau o) ->
  step_shape nu (PrimalDualHybridGradient.sigma o) ->
  maps_shape nx nu (PrimalDualHybridGradient.A o) ->
  maps_shape nu nx (PrimalDualHybridGradient.AH o) ->
  (forall t, maps_shape nu nu (PrimalDualHybridGradient.proxfc o t)) ->
  (forall t, maps_shape nx nx (PrimalDualHybridGradient.proxg o t)) ->
  exists s,
    (Alg.init ;; repeat_call k Alg.update) o = Return tt s /\
    Alg.iter (PrimalDualHybridGradient.alg s) = Some (Z.of_nat k) /\
    PDHG_initialised s = true /\
    List.length (PrimalDualHybridGradient.x s) = nx /\
    List.length (PrimalDualHybridGradient.u s) = nu.
Proof.
  intros Hx Hu Ht Hg Hst Hss HA HAH Hpf Hpg.
  destruct o as [proxfc proxg A AH u x tau sigma gp gd [m it] xe uo xo].
  simpl in Hx, Hu, Ht, Hg, Hst, Hss, HA, HAH, Hpf, Hpg.
  destruct (PDHG_run_shaped nx nu k
              (PrimalDualHybridGradient.mk proxfc proxg A AH u x tau sigma
                 gp gd (Alg.mk m (Some 0%Z)) (Some x) (Some u) (Some x))
              0%Z eq_refl Ht Hg) as (s & Hrun & Hi & Hs & Hxs & Hus & _).
  - unfold PDHG_shaped. simpl. repeat split; try assumption.
    intros xe' H. now injection H as <-.
  - reflexivity.
  - exists s. repeat split; assumption.
Qed.

Lemma PDHG_run_witness :
  exists s,
    (Alg.init ;; repeat_call 3 Alg.update)
      (PrimalDualHybridGradient.__init__
         (fun _ w => w) (fun _ w => w) (fun w => w) (fun w => w)
         [Fin 1%R] [Fin 2%R] (Arr [Fin 4%R]) (Float (Fin 3%R))
         (Fin 1%R) (Fin 0%R) 100) = Return tt s /\
    Alg.iter (PrimalDualHybridGradient.alg s) = Some 3%Z.
Proof.
  destruct (PDHG_run (PrimalDualHybridGradient.__init__
                        (fun _ w => w) (fun _ w => w) (fun w => w)
                        (fun w => w) [Fin 1%R] [Fin 2%R] (Arr [Fin 4%R])
                        (Float (Fin 3%R)) (Fin 1%R) (Fin 0%R) 100) 1 1 3)
    as (s & Hrun & Hi & _); try reflexivity;
    try (intros v Hv; exact Hv); try (intros t v Hv; exact Hv).
  exists s. split; [exact Hrun | exact Hi].
Defined.

(** ** Gradient method: the momentum coefficient *)

Section MomentumSchedule.

Local Open Scope R_scope.

Lemma t_next_fin (t : R) :
  GradientMethod.t_next (Fin t) = Fin ((1 + sqrt (1 + 4 * (t * t))) / 2).
Proof.
  unfold GradientMethod.t_next, square. cbn [fmul fadd].
  rewrite pow_half_nonneg by nra. cbn [fadd].
  now rewrite fdiv_fin by lra.
Qed.

Lemma t_next_grows (t : R) :
  0 <= t -> t + 1 / 2 < (1 + sqrt (1 + 4 * (t * t))) / 2.
Proof.
  intros Ht.
  assert (H : 2 * t < sqrt (1 + 4 * (t * t))).
  { rewrite <- (sqrt_square (2 * t)) at 1 by lra.
    apply sqrt_lt_1; nra. }
  lra.
Qed.

Lemma t_schedule (k : nat) :
  exists tk,
    Nat.iter k GradientMethod.t_next (Fin 1) = Fin tk /\
    1 + INR k / 2 <= tk.
Proof.
  induction k as [|k (tk & Hk & Hle)].
  - exists 1. split; [reflexivity|]. simpl. lra.
  - exists ((1 + sqrt (1 + 4 * (tk * tk))) / 2). split.
    + now rewrite Nat.iter_succ, Hk, t_next_fin.
    + rewrite S_INR. pose proof (pos_INR k).
      pose proof (t_next_grows tk). lra.
Qed.

Lemma momentum_bounds (tk : R) :
  1 <= tk ->
  exists w,
    GradientMethod.momentum (Fin tk) (GradientMethod.t_next (Fin tk)) = Fin w /\
    0 <= w < 1.
Proof.
  intros Ht. pose proof (t_next_grows tk) as Hg.
  exists ((tk + - 1) / ((1 + sqrt (1 + 4 * (tk * tk))) / 2)). split.
  - rewrite t_next_fin. unfold GradientMethod.momentum. cbn [fsub fneg fadd].
    apply fdiv_fin. lra.
  - split.
    + apply Rmult_le_pos; [lra|]. left. apply Rinv_0_lt_compat. lra.
    + apply Rmult_lt_reg_r with ((1 + sqrt (1 + 4 * (tk * tk))) / 2); [lra|].
      unfold Rdiv at 1. rewrite Rmult_assoc, Rinv_l by lra. lra.
Qed.

End MomentumSchedule.

Lemma GradientMethod_update_accelerated (s : GradientMethod.obj) (tv : scalar) :
  GradientMethod_initialised s = true ->
  GradientMethod.accelerate s = true ->
  GradientMethod.t s = Some tv ->
  exists s',
    Alg.update s = Return tt s' /\
    GradientMethod_initialised s' = true /\
    GradientMethod.accelerate s' = true /\
    GradientMethod.t s' = Some (GradientMethod.t_next tv).
Proof.
  destruct s as [gradf alpha acc proxg x [m it] z t x_old res].
  unfold GradientMethod_initialised, GradientMethod.keeps_x_old. simpl.
  intros Hs Hacc Ht. subst acc t. simpl in Hs.
  destruct it as [i|]; [|discriminate].
  destruct res as [res|]; [|discriminate].
  destruct z as [zv|]; [|discriminate].
  destruct x_old as [xo|]; [|discriminate]. clear Hs.
  destruct proxg as [prox|]; eexists; (split; [reflexivity|]); repeat split.
Qed.

Lemma GradientMethod_run_accelerated (k : nat) :
  forall (s : GradientMethod.obj) (tv : scalar),
    GradientMethod_initialised s = true ->
    GradientMethod.accelerate s = true ->
    GradientMethod.t s = Some tv ->
    exists s',
      repeat_call k Alg.update s = Return tt s' /\
      GradientMethod.t s' = Some (Nat.iter k GradientMethod.t_next tv).
Proof.
  induction k as [|k IH]; intros s tv Hs Hacc Ht.
  - exists s. split; [reflexivity | exact Ht].
  - destruct (GradientMethod_update_accelerated s tv Hs Hacc Ht)
      as (s1 & Hu & Hs1 & Hacc1 & Ht1).
    destruct (IH s1 _ Hs1 Hacc1 Ht1) as (s' & Hrun & Ht').
    exists s'. split.
    + cbn [repeat_call]. unfold bind at 1. now rewrite Hu.
    + rewrite Ht'. f_equal. now rewrite Nat.iter_succ_r.
Qed.

(** X12. Accelerated gradient method: [init()] and any number [k] of
    [update()] calls return; after them the momentum coefficient [t] is a
    real number at least [1 + k/2], and the extrapolation weight
    [(t - 1) / t_new] that the next update applies lies in [[0, 1)]. *)
Theorem GradientMethod_momentum_schedule (o : GradientMethod.obj) (k : nat) :
  GradientMethod.accelerate o = true ->
  exists s tk w,
    (Alg.init ;; repeat_call k Alg.update) o = Return tt s /\
    GradientMethod.t s = Some (Fin tk) /\
    (1 + INR k / 2 <= tk)%R /\
    GradientMethod.momentum (Fin tk) (GradientMethod.t_next (Fin tk)) = Fin w /\
    (0 <= w < 1)%R.
Proof.
  intros Hacc.
  destruct o as [gradf alpha acc proxg x [m it] z t x_old res].
  simpl in Hacc. subst acc.
  destruct (GradientMethod_run_accelerated k
              (GradientMethod.mk gradf alpha true proxg x
                 (Alg.mk m (Some 0%Z)) (Some x) (Some (Fin 1%R)) (Some x)
                 (Some PInf))
              (Fin 1%R) eq_refl eq_refl eq_refl) as (s & Hrun & Ht).
  destruct (t_schedule k) as (tk & Hk & Hle).
  destruct (momentum_bounds tk) as (w & Hw & Hb).
  { pose proof (pos_INR k). lra. }
  exists s, tk, w. split; [exact Hrun|].
  split; [now rewrite Ht, Hk|]. split; [exact Hle|]. split; assumption.
Qed.

Lemma GradientMethod_momentum_schedule_witness :
  exists s tk,
    (Alg.init ;; repeat_call 2 Alg.update)
      (GradientMethod.__init__ (fun w => w) [Fin 1%R] (Fin 1%R) None true 10)
    = Return tt s /\
    GradientMethod.t s = Some (Fin tk) /\ (1 + INR 2 / 2 <= tk)%R.
Proof.
  destruct (GradientMethod_momentum_schedule
              (GradientMethod.__init__ (fun w => w) [Fin 1%R] (Fin 1%R)
                                       None true 10) 2 eq_refl)
    as (s & tk & w & Hrun & Ht & Hle & _).
  exists s, tk. split; [exact Hrun|]. split; [exact Ht | exact Hle].
Defined.

(** ** Gradient method: fixed points *)

Section FixedPoints.

Local Open Scope R_scope.

Lemma axpy_zero_direction (a : R) (xs : list R) :
  util.axpy (of_reals xs) (fneg (Fin a))
            (of_reals (repeat 0 (List.length xs)))
  = of_reals xs.
Proof.
  unfold util.axpy, vadd, smul, of_reals.
  induction xs as [|v xs IH]; [reflexivity|].
  cbn [List.length repeat map map2]. rewrite IH. f_equal.
  cbn. f_equal. ring.
Qed.

Lemma sumsq_all_zero (l : list R) :
  Forall (fun v => v = 0) l -> sumsq l = 0.
Proof.
  induction 1 as [|v l Hv _ IH]; [reflexivity|].
  simpl. rewrite IH, Hv, Rabs_R0. ring.
Qed.

Lemma no_move_residual (xs : list R) (n : R) :
  n <> 0 ->
  util.norm (sdiv (vsub (of_reals xs) (of_reals xs)) (Fin n)) = Fin 0.
Proof.
  intros Hn. rewrite vsub_of_reals, sdiv_of_reals by exact Hn.
  rewrite norm_of_reals, sumsq_all_zero; [now rewrite sqrt_0|].
  induction xs as [|v xs IH]; cbn [map map2]; constructor.
  - field. exact Hn.
  - exact IH.
Qed.

End FixedPoints.

(** [done()] of the gradient method on a zero residual. *)
Lemma GradientMethod_done_converged (s : GradientMethod.obj) (i : Z) :
  Alg.iter (GradientMethod.alg s) = Some i ->
  GradientMethod.residual s = Some (Fin 0%R) ->
  Alg.done s = Return true s.
Proof.
  intros Hi Hr.
  destruct s as [gradf alpha acc proxg x [m it] z t x_old res].
  simpl in Hi, Hr. subst it res.
  unfold Alg.done, Alg.self_done, GradientMethod.subclass,
    GradientMethod._done, bind, getattr, get, ret.
  cbn [GradientMethod.alg GradientMethod.residual Alg.iter Alg.max_iter].
  destruct (m <=? i)%Z; [reflexivity|].
  lazy -[feqb IZR array]. now rewrite feqb_zero_zero.
Qed.

(** X13. Plain gradient descent at a stationary point: when [gradf(x)] is
    the zero array (real [x], real step), [update()] leaves [x] where it
    is, sets the residual to exactly 0, and [done()] then returns true
    whatever [max_iter] is. *)
Theorem GradientMethod_stationary_point
        (s : GradientMethod.obj) (i : Z) (xs : list R) (a : R) :
  GradientMethod.accelerate s = false ->
  GradientMethod.proxg s = None ->
  Alg.iter (GradientMethod.alg s) = Some i ->
  GradientMethod.alpha s = Fin a ->
  GradientMethod.x s = of_reals xs ->
  GradientMethod.gradf s (of_reals xs)
  = of_reals (repeat 0%R (List.length xs)) ->
  exists s',
    Alg.update s = Return tt s' /\
    GradientMethod.x s' = GradientMethod.x s /\
    GradientMethod.residual s' = Some (Fin 0%R) /\
    Alg.done s' = Return true s'.
Proof.
  intros Hacc Hp Hi Ha Hx Hg.
  destruct s as [gradf alpha acc proxg x [m it] z t x_old res].
  simpl in Hacc, Hp, Hi, Ha, Hx, Hg. subst acc proxg it alpha x.
  exists (GradientMethod.mk gradf (Fin a) false None (of_reals xs)
            (Alg.mk m (Some (i + 1)%Z)) z t x_old (Some (Fin 0%R))).
  split.
  - rewrite <- (axpy_zero_direction a xs) at 2.
    rewrite <- (norm_zeros (List.length xs)), <- of_reals_zeros.
    rewrite <- Hg. reflexivity.
  - split; [reflexivity|]. split; [reflexivity|].
    now apply GradientMethod_done_converged with (i + 1)%Z.
Qed.

Lemma GradientMethod_stationary_point_witness :
  let s := final (Alg.init
                    (GradientMethod.__init__
                       (fun w => smul (Fin 0%R) w) (of_reals [0; 0]%R)
                       (Fin 1%R) None false 10)) in
  exists s',
    Alg.update s = Return tt s' /\ Alg.done s' = Return true s'.
Proof.
  intros s.
  assert (Hg : GradientMethod.gradf s (of_reals [0; 0]%R)
               = of_reals (repeat 0%R (List.length [0; 0]%R))).
  { subst s. simpl. repeat f_equal; ring. }
  destruct (GradientMethod_stationary_point s 0%Z [0; 0]%R 1%R
              eq_refl eq_refl eq_refl eq_refl eq_refl Hg)
    as (s' & Hu & _ & _ & Hd).
  exists s'. split; [exact Hu | exact Hd].
Defined.

(** X14. Proximal gradient method at a fixed point: when
    [proxg(alpha, x - alpha * gradf(x))] is [x] again (real [x], real
    [alpha > 0]), [update()] leaves [x] where it is, the residual
    [norm((x - x_old) / sqrt(alpha))] is exactly 0, and [done()] returns
    true. *)
Theorem GradientMethod_prox_fixed_point
        (s : GradientMethod.obj) (i : Z) (xs : list R) (a : R)
        (prox : scalar -> array -> array) (xo : array) :
  GradientMethod.accelerate s = false ->
  GradientMethod.proxg s = Some prox ->
  Alg.iter (GradientMethod.alg s) = Some i ->
  GradientMethod.x_old s = Some xo ->
  GradientMethod.alpha s = Fin a ->
  (0 < a)%R ->
  GradientMethod.x s = of_reals xs ->
  prox (Fin a)
       (util.axpy (of_reals xs) (fneg (Fin a))
                  (GradientMethod.gradf s (of_reals xs)))
  = of_reals xs ->
  exists s',
    Alg.update s = Return tt s' /\
    GradientMethod.x s' = GradientMethod.x s /\
    GradientMethod.x_old s' = Some (GradientMethod.x s) /\
    GradientMethod.residual s' = Some (Fin 0%R) /\
    Alg.done s' = Return true s'.
Proof.
  intros Hacc Hp Hi Hxo Ha Hpos Hx Hfix.
  destruct s as [gradf alpha acc proxg x [m it] z t x_old res].
  simpl in Hacc, Hp, Hi, Hxo, Ha, Hx, Hfix. subst acc proxg it x_old alpha x.
  exists (GradientMethod.mk gradf (Fin a) false (Some prox) (of_reals xs)
            (Alg.mk m (Some (i + 1)%Z)) z t (Some (of_reals xs))
            (Some (Fin 0%R))).
  assert (Hs : (0 < sqrt a)%R) by now apply sqrt_lt_R0.
  split.
  - set (x1 := prox (Fin a)
                    (util.axpy (of_reals xs) (Fin (- a)%R)
                               (gradf (of_reals xs)))) in Hfix.
    assert (Hu : Alg.update
                   (GradientMethod.mk gradf (Fin a) false (Some prox)
                      (of_reals xs) (Alg.mk m (Some i)) z t (Some xo) res)
                 = Return tt
                     (GradientMethod.mk gradf (Fin a) false (Some prox) x1
                        (Alg.mk m (Some (i + 1)%Z)) z t (Some (of_reals xs))
                        (Some (util.norm
                                 (sdiv (vsub x1 (of_reals xs))
                                       (pow_half (Fin a)))))))
      by reflexivity.
    rewrite Hu, Hfix, (pow_half_nonneg a) by lra.
    now rewrite (no_move_residual xs (sqrt a)) by lra.
  - split; [reflexivity|]. split; [reflexivity|]. split; [reflexivity|].
    now apply GradientMethod_done_converged with (i + 1)%Z.
Qed.

Lemma GradientMethod_prox_fixed_point_witness :
  let s := final (Alg.init
                    (GradientMethod.__init__
                       (fun w => w) (of_reals [3; 4]%R) (Fin 1%R)
                       (Some (fun _ _ => of_reals [3; 4]%R)) false 10)) in
  exists s',
    Alg.update s = Return tt s' /\ Alg.done s' = Return true s'.
Proof.
  intros s.
  destruct (GradientMethod_prox_fixed_point s 0%Z [3; 4]%R 1%R
              (fun _ _ => of_reals [3; 4]%R) (of_reals [3; 4]%R)
              eq_refl eq_refl eq_refl eq_refl eq_refl Rlt_0_1 eq_refl eq_refl)
    as (s' & Hu & _ & _ & _ & Hd).
  exists s'. split; [exact Hu | exact Hd].
Defined.

(** X15. Gradient method, [cleanup()] after [init()]: it returns and
    deletes exactly the buffers that the configuration made [init()]
    allocate ([z] and [t] when accelerating, [x_old] when accelerating or
    using [proxg]); [x] and [residual] stay. If anything was allocated, a
    second [cleanup()] and a further [update()] raise; if nothing was,
    [cleanup()] can be repeated. *)
Theorem GradientMethod_cleanup (o : GradientMethod.obj) :
  exists s1 s2,
    Alg.init o = Return tt s1 /\
    Alg.cleanup s1 = Return tt s2 /\
    (GradientMethod.accelerate o = true ->
     GradientMethod.z s2 = None /\ GradientMethod.t s2 = None) /\
    (GradientMethod.keeps_x_old o = true ->
     GradientMethod.x_old s2 = None /\
     returned (Alg.cleanup s2) = false /\
     Alg.update s2 = Raise (AttributeError "x_old") s2) /\
    (GradientMethod.keeps_x_old o = false ->
     s2 = s1 /\ Alg.cleanup s2 = Return tt s2) /\
    GradientMethod.x s2 = GradientMethod.x o /\
    GradientMethod.residual s2 = Some PInf.
Proof.
  destruct o as [gradf alpha acc proxg x [m it] z t x_old res].
  unfold GradientMethod.keeps_x_old. simpl.
  set (a0 := Alg.mk m (Some 0%Z)).
  destruct acc, proxg as [prox|].
  - exists (GradientMethod.mk gradf alpha true (Some prox) x a0
              (Some x) (Some (Fin 1%R)) (Some x) (Some PInf)).
    exists (GradientMethod.mk gradf alpha true (Some prox) x a0
              None None None (Some PInf)).
    repeat split; try discriminate; apply update_raises; reflexivity.
  - exists (GradientMethod.mk gradf alpha true None x a0
              (Some x) (Some (Fin 1%R)) (Some x) (Some PInf)).
    exists (GradientMethod.mk gradf alpha true None x a0
              None None None (Some PInf)).
    repeat split; try discriminate; apply update_raises; reflexivity.
  - exists (GradientMethod.mk gradf alpha false (Some prox) x a0
              z t (Some x) (Some PInf)).
    exists (GradientMethod.mk gradf alpha false (Some prox) x a0
              z t None (Some PInf)).
    repeat split; try discriminate; apply update_raises; reflexivity.
  - exists (GradientMethod.mk gradf alpha false None x a0
              z t x_old (Some PInf)).
    exists (GradientMethod.mk gradf alpha false None x a0
              z t x_old (Some PInf)).
    repeat split; discriminate.
Qed.

Lemma GradientMethod_cleanup_witness :
  exists s1 s2,
    Alg.init (GradientMethod.__init__ (fun w => w) [Fin 1%R] (Fin 1%R)
                                      None true 10) = Return tt s1 /\
    Alg.cleanup s1 = Return tt s2 /\
    GradientMethod.z s2 = None /\
    Alg.update s2 = Raise (AttributeError "x_old") s2.
Proof.
  destruct (GradientMethod_cleanup
              (GradientMethod.__init__ (fun w => w) [Fin 1%R] (Fin 1%R)
                                       None true 10))
    as (s1 & s2 & Hi & Hc & Hz & Hk & _).
  exists s1, s2. split; [exact Hi|]. split; [exact Hc|].
  split; [apply Hz; reflexivity|]. apply Hk. reflexivity.
Defined.
